(** * Dos (Pusoy Dos): the combination evaluator and the round state machine

    A shallow embedding of [src/dos/Game.ts]: the classes [Card] and [Play],
    the game object [Dos] (its [setup], the moves [play] and [pass]) and the
    turn-order function [getNext], followed by the properties of the rules
    that the specification states about them. *)

From Stdlib Require Import ZArith Lia Ascii String.
From Equations Require Import Equations.
From stdpp Require Import gmap strings list fin_maps sorting.

Local Open Scope Z_scope.

(** ** The JavaScript primitives the source relies on *)

Module Js.

(** [String.prototype.indexOf]: position of the first occurrence, or -1. *)
Definition indexOf (hay needle : string) : Z :=
  match String.index 0 needle hay with
  | Some n => Z.of_nat n
  | None => -1
  end.

(** [ToString] of a value that is a one-character string or [undefined]. *)
Definition toStr (o : option ascii) : string :=
  match o with
  | Some c => String c EmptyString
  | None => "undefined"
  end.

(** [Array.prototype.indexOf] on an array of strings. *)
Fixpoint arrayIndexOf (l : list string) (x : string) : Z :=
  match l with
  | [] => -1
  | y :: l' =>
      if bool_decide (y = x) then 0
      else let i := arrayIndexOf l' x in if i <? 0 then -1 else i + 1
  end.

(** [Array.prototype.includes]. *)
Definition includes {A} `{EqDecision A} (l : list A) (x : A) : bool :=
  bool_decide (x ∈ l).

(** [Array.prototype.splice (start, deleteCount)]: the removed elements and
    the array that is left.  A negative [start] counts from the end. *)
Definition splice {A} (l : list A) (start : Z) (deleteCount : Z)
  : list A * list A :=
  let len := Z.of_nat (length l) in
  let from := if start <? 0 then Z.max (len + start) 0 else Z.min start len in
  let cnt := Z.min (Z.max deleteCount 0) (len - from) in
  (take (Z.to_nat cnt) (drop (Z.to_nat from) l),
   take (Z.to_nat from) l ++ drop (Z.to_nat (from + cnt)) l).

(** [Array.prototype.pop] on the array [splice] returned: its last element,
    [undefined] when it is empty. *)
Definition pop {A} (l : list A) : option A := last l.

(** [Array.prototype.sort (cmp)].  The order of elements the comparator
    does not tell apart is left to the engine; the embedding takes the
    stable insertion sort.  Every property below that reads a sorted array
    reads values only, which no such choice changes. *)
Fixpoint insertBy {A} (cmp : A → A → Z) (x : A) (l : list A) : list A :=
  match l with
  | [] => [x]
  | y :: l' => if 0 <? cmp x y then y :: insertBy cmp x l' else x :: y :: l'
  end.

Definition sort {A} (cmp : A → A → Z) (l : list A) : list A :=
  foldr (insertBy cmp) [] l.

(** [d3.ascending] on numbers. *)
Definition ascending (a b : Z) : Z :=
  if a <? b then -1 else if b <? a then 1 else 0.

(** [new Set (l)] followed by [Array.from]: the distinct elements in the
    order of their first occurrence. *)
Fixpoint setAdd {A} `{EqDecision A} (seen : list A) (l : list A) : list A :=
  match l with
  | [] => seen
  | x :: l' =>
      if bool_decide (x ∈ seen) then setAdd seen l'
      else setAdd (seen ++ [x]) l'
  end.

Definition setOf {A} `{EqDecision A} (l : list A) : list A := setAdd [] l.

(** Truthiness of a number or [undefined]: [if (val)] fails on 0 as it
    does on [undefined]. *)
Definition ifTruthy (o : option Z) : option Z :=
  match o with
  | Some v => if v =? 0 then None else Some v
  | None => None
  end.

Definition truthy (o : option Z) : bool := bool_decide (is_Some (ifTruthy o)).

(** [Array.prototype.join (sep)] on strings. *)
Fixpoint join (sep : string) (l : list string) : string :=
  match l with
  | [] => ""
  | x :: l' => match l' with [] => x | _ => x +:+ sep +:+ join sep l' end
  end.

(** The characters [\s] matches, among the code units below 256. *)
Definition isSpace (c : ascii) : bool :=
  let n := nat_of_ascii c in
  bool_decide (n ∈ [9; 10; 11; 12; 13; 32; 160]%nat).

(** [String.prototype.split (/\s+/)]: the texts between the maximal runs
    of whitespace, the empty ones at both ends included.  [cur] is the text
    read since the last run and [inRun] says that the last character was
    whitespace; [split] starts with an empty [cur] outside a run. *)
Fixpoint splitGo (s cur : string) (inRun : bool) : list string :=
  match s with
  | EmptyString => [cur]
  | String c s' =>
      if isSpace c
      then (if inRun then splitGo s' "" true else cur :: splitGo s' "" true)
      else splitGo s' (cur +:+ String c "") false
  end.

Definition split (s : string) : list string := splitGo s "" false.

End Js.

(** ** Cards *)

Definition NUM_PLAYERS : nat := 4.
Definition RANKS : string := "3456789TJQKA2".
Definition SUITS : string := "CSHD".

(** The [enum Combi]; [CNone] is its member [None]. *)
Inductive Combi := CNone | Straight | Flush | FullHouse | Quadro | StraightFlush.

(** The numeric value of a member of the [enum]. *)
Definition Combi_num (k : Combi) : Z :=
  match k with
  | CNone => 0 | Straight => 1 | Flush => 2
  | FullHouse => 3 | Quadro => 4 | StraightFlush => 5
  end.

#[global] Instance Combi_eq_dec : EqDecision Combi.
Proof. solve_decision. Defined.

(** A card text, [CardStr] in the source, is a string such as ["3C"]. *)
Abbreviation CardStr := string (only parsing).

(** [rank] and [suit] are one-character strings, or [undefined] when the text
    the card was read from was too short. *)
Record Card := mkCard { rank : option ascii; suit : option ascii }.

#[global] Instance Card_eq_dec : EqDecision Card.
Proof. solve_decision. Defined.

Definition rankIndex (c : Card) : Z := Js.indexOf RANKS (Js.toStr (rank c)).
Definition suitIndex (c : Card) : Z := Js.indexOf SUITS (Js.toStr (suit c)).

Definition Card_value (c : Card) : Z := rankIndex c * 4 + suitIndex c.

Definition Card_toString (c : Card) : CardStr :=
  Js.toStr (rank c) +:+ Js.toStr (suit c).

(** [s.split('')] destructured into its first two elements. *)
Definition Card_fromString (s : CardStr) : Card :=
  match s with
  | EmptyString => mkCard None None
  | String r EmptyString => mkCard (Some r) None
  | String r (String u _) => mkCard (Some r) (Some u)
  end.

Definition chars (s : string) : list ascii := list_ascii_of_string s.

Definition Card_newDeck : list Card :=
  r ← chars RANKS; s ← chars SUITS; [mkCard (Some r) (Some s)].

Definition Card_lowest : Card := Card_fromString "3C".

(** ** Plays *)

Record Play := mkPlay { cards : list Card; player : option nat }.

Definition byValue (a b : Card) : Z :=
  if Card_value b <? Card_value a then 1 else -1.

(** The constructor sorts the cards it is given. *)
Definition newPlay (cs : list Card) (p : option nat) : Play :=
  mkPlay (Js.sort byValue cs) p.

(** [freqs] of [withSameRank]: how many cards there are of each rank.  The
    keys of the object are the ranks as property names. *)
Definition freqStep (freqs : gmap string nat) (c : Card) : gmap string nat :=
  let k := Js.toStr (rank c) in
  <[k := (default 0%nat (freqs !! k) + 1)%nat]> freqs.

Definition rankFreqs (cs : list Card) : gmap string nat := foldl freqStep ∅ cs.

(** [this.withSameRank.has (n)]. *)
Definition withSameRank_has (p : Play) (n : nat) : bool :=
  bool_decide (n ∈ (map_to_list (rankFreqs (cards p))).*2).

Definition num (c : Card) : Z := Z.rem (rankIndex c + 2) 13.

(** [nums[i]] of an array of numbers; the source reads it only where the
    array has five elements. *)
Definition at_ (l : list Z) (i : nat) : Z := default 0 (l !! i).

Definition Play_straight (p : Play) : option Z :=
  let numSet := Js.setOf (num <$> cards p) in
  if bool_decide (length numSet = 5%nat) then
    let nums := Js.sort Js.ascending numSet in
    if at_ nums 0 + 4 =? at_ nums 4 then
      Card_value <$> List.find (λ c, num c =? at_ nums 4) (cards p)
    else if at_ nums 0 =? 0 then
      let nums' := Js.sort Js.ascending (<[0%nat := 13]> nums) in
      if at_ nums' 0 + 4 =? at_ nums' 4 then
        Card_value <$> List.find (λ c, num c =? 0) (cards p)
      else None
    else None
  else None.

(** [flush], [quadro] and [fullHouse] read [this.cards[i]]; on a play with
    fewer cards the read of a field of [undefined] throws, which the
    embedding does not need: [value] calls them on five cards only. *)
Definition Play_flush (p : Play) : option Z :=
  match cards p !! 0%nat, cards p !! 4%nat with
  | Some c0, Some c4 =>
      if forallb (λ c, bool_decide (suit c = suit c0)) (cards p)
      then Some (suitIndex c4 * 13 + rankIndex c4)
      else None
  | _, _ => None
  end.

Definition Play_quadro (p : Play) : option Z :=
  if withSameRank_has p 4 then Card_value <$> cards p !! 1%nat else None.

Definition Play_fullHouse (p : Play) : option Z :=
  if withSameRank_has p 2 && withSameRank_has p 3
  then Card_value <$> cards p !! 2%nat else None.

(** The immediately invoked function of [case 5]: the kind and its
    comparison value. *)
Definition classify (p : Play) : Combi * Z :=
  match Js.ifTruthy (Play_straight p) with
  | Some val =>
      if Js.truthy (Play_flush p) then (StraightFlush, val) else (Straight, val)
  | None =>
      match Js.ifTruthy (Play_quadro p) with
      | Some val => (Quadro, val)
      | None =>
          match Js.ifTruthy (Play_fullHouse p) with
          | Some val => (FullHouse, val)
          | None =>
              match Js.ifTruthy (Play_flush p) with
              | Some val => (Flush, val)
              | None => (CNone, 0)
              end
          end
      end
  end.

(** The getter [value]: [None] is the [null] of an invalid combination. *)
Definition Play_value (p : Play) : option Z :=
  match length (cards p) with
  | 1%nat => Card_value <$> cards p !! 0%nat
  | 2%nat => if withSameRank_has p 2 then Card_value <$> cards p !! 1%nat else None
  | 3%nat => if withSameRank_has p 3 then Card_value <$> cards p !! 0%nat else None
  | 5%nat =>
      let '(combi, val) := classify p in
      if bool_decide (combi = CNone) then None
      else Some (Combi_num combi * 1000 + val)
  | _ => None
  end.

(** [Play.fromString] on an array of card texts. *)
Definition Play_fromString (s : list CardStr) (p : option nat) : Play :=
  newPlay (Card_fromString <$> s) p.

Definition Play_toStrings (p : Play) : list CardStr := Card_toString <$> cards p.

(** [toString] of a play, and [Play.fromString] on one text. *)
Definition Play_toString (p : Play) : string :=
  Js.join " " (Play_toStrings p).

Definition Play_fromText (s : string) (p : option nat) : Play :=
  Play_fromString (Js.split s) p.

(** ** The round state *)

(** An entry of a discarded group is what [splice (...).pop ()] gave:
    [None] is [undefined]. *)
Record State := mkState {
  players : gmap nat (list CardStr);
  remaining : gmap nat nat;
  firstTurn : nat;
  hasStarted : bool;
  discarded : list (list (option CardStr));
  lastPlay : option Play;
  winners : list nat
}.

(** The part of the framework's [Ctx] that the game reads.  The source reads
    the seat as [toInt (ctx.currentPlayer)]; [toInt] belongs to [utils],
    which is not among the sources, and the embedding keeps the seat as the
    number it stands for. *)
Record Ctx := mkCtx {
  currentPlayer : nat;
  playOrderPos : nat;
  numPlayers : nat
}.

Definition set_players (f : gmap nat (list CardStr) → gmap nat (list CardStr))
    (G : State) : State :=
  mkState (f (players G)) (remaining G) (firstTurn G) (hasStarted G)
          (discarded G) (lastPlay G) (winners G).
Definition set_remaining (f : gmap nat nat → gmap nat nat) (G : State) : State :=
  mkState (players G) (f (remaining G)) (firstTurn G) (hasStarted G)
          (discarded G) (lastPlay G) (winners G).
Definition set_hasStarted (b : bool) (G : State) : State :=
  mkState (players G) (remaining G) (firstTurn G) b
          (discarded G) (lastPlay G) (winners G).
Definition push_discarded (d : list (option CardStr)) (G : State) : State :=
  mkState (players G) (remaining G) (firstTurn G) (hasStarted G)
          (discarded G ++ [d]) (lastPlay G) (winners G).
Definition set_lastPlay (p : option Play) (G : State) : State :=
  mkState (players G) (remaining G) (firstTurn G) (hasStarted G)
          (discarded G) p (winners G).
Definition push_winners (seat : nat) (G : State) : State :=
  mkState (players G) (remaining G) (firstTurn G) (hasStarted G)
          (discarded G) (lastPlay G) (winners G ++ [seat]).

(** *** [setup] *)

(** The loop that deals the shuffled deck, thirteen cards at a time. *)
Equations? deal (deck : list Card) (players : gmap nat (list CardStr))
    (remaining : gmap nat nat) (firstTurn : nat)
    : gmap nat (list CardStr) * gmap nat nat * nat by wf (length deck) lt :=
  deal [] players remaining firstTurn := (players, remaining, firstTurn);
  deal (c :: deck') players remaining firstTurn :=
    let player := size players in
    let hand := (Js.splice (c :: deck') 0 13).1 in
    let rest := (Js.splice (c :: deck') 0 13).2 in
    let firstTurn' :=
      if existsb (λ c, Card_value c =? Card_value Card_lowest) hand
      then player else firstTurn in
    deal rest (<[player := Card_toString <$> hand]> players)
         (<[player := length hand]> remaining) firstTurn'.
Proof.
  subst rest. unfold Js.splice. cbn [snd].
  rewrite length_app, length_take, length_drop.
  change (0 <? 0) with false. cbv iota.
  cbn [length]. lia.
Qed.

(** [deck] is what [ctx.random.Shuffle (Card.newDeck ())] returned. *)
Definition setup (deck : list Card) : State :=
  let '(players, remaining, firstTurn) := deal deck ∅ ∅ 0%nat in
  mkState players remaining firstTurn false [] None [].

(** *** Moves *)

(** How a move ends other than by returning normally. *)
Inductive Exit :=
| INVALID_MOVE   (* the move returned [INVALID_MOVE] *)
| Throws         (* a [TypeError] was thrown *)
| Diverges.      (* the move does not return *)

(** A move runs on the state [G] it is handed and changes it in place: a
    computation that ends early with an [Exit] or returns a result, and in
    both cases leaves a state behind. *)
Definition Move (A : Type) : Type := State → (Exit + A) * State.

#[global] Instance Move_ret : MRet Move := λ A a G, (inr a, G).
#[global] Instance Move_bind : MBind Move := λ A B f m G,
  match m G with
  | (inl e, G') => (inl e, G')
  | (inr a, G') => f a G'
  end.

Definition exit {A} (e : Exit) : Move A := λ G, (inl e, G).
Definition get : Move State := λ G, (inr G, G).
Definition modify (f : State → State) : Move unit := λ G, (inr (), f G).

(** *** Turn order *)

(** The loop of [getNext], run for at most [fuel] iterations from [i].  The
    game is declared for [NUM_PLAYERS] seats; with [numPlayers] 0 the source
    computes [NaN], which the embedding leaves out: the properties are about
    a positive number of seats. *)
Fixpoint getNext_loop (fuel : nat) (G : State) (ctx : Ctx) (i : nat) : option nat :=
  match fuel with
  | O => None
  | S fuel' =>
      let nextPlayer := ((playOrderPos ctx + i) `mod` numPlayers ctx)%nat in
      if Js.includes (winners G) nextPlayer
      then getNext_loop fuel' G ctx (i + 1)%nat
      else Some nextPlayer
  end.

(** [getNext]: the seat the loop returns, [None] when it runs forever.  The
    seats the loop visits repeat after [numPlayers] iterations, so a loop
    that has not returned by then never does ([getNext_None_diverges]). *)
Definition getNext (G : State) (ctx : Ctx) : option nat :=
  getNext_loop (numPlayers ctx) G ctx 1.

(** *** [play] *)

(** The [map] that builds [discard]: each card text is spliced out of the
    hand at the index [indexOf] gives, -1 included. *)
Fixpoint takeFromHand (hand : list CardStr) (playString : list CardStr)
    : list (option CardStr) * list CardStr :=
  match playString with
  | [] => ([], hand)
  | card :: rest =>
      let '(removed, hand') := Js.splice hand (Js.arrayIndexOf hand card) 1 in
      let '(discard, hand'') := takeFromHand hand' rest in
      (Js.pop removed :: discard, hand'')
  end.

(** The body of [play] after the two early returns, in its two parts: the
    check against the table, and the removal of the cards from the hand. *)
Definition checkTable (play : Play) (playString : list CardStr) (playValue : Z)
    : Move unit :=
  G ← get;
  match lastPlay G with
  | None =>
      if negb (hasStarted G) then
        if negb (Js.includes playString (Card_toString Card_lowest))
        then exit INVALID_MOVE
        else modify (set_hasStarted true)
      else mret ()
  | Some last =>
      if negb (length (cards last) =? length (cards play))%nat
      then exit INVALID_MOVE
      else if playValue <? default 0 (Play_value last)
      then exit INVALID_MOVE
      else mret ()
  end.

(** [hand] is the array the state holds for the seat: splicing it changes
    [G.players], which the embedding writes back. *)
Definition discardPlay (seat : nat) (hand : list CardStr) (play : Play)
    (playString : list CardStr) : Move unit :=
  let '(discard, hand') := takeFromHand hand playString in
  modify (set_players (<[seat := hand']>));;
  modify (push_discarded discard);;
  modify (set_lastPlay (Some play));;
  (if (length hand' =? 0)%nat
   then (modify (push_winners seat);; modify (set_lastPlay None))
   else mret ());;
  modify (set_remaining (<[seat := length hand']>)).

Definition play (ctx : Ctx) (cards_ : list CardStr) : Move unit :=
  G ← get;
  let seat := currentPlayer ctx in
  let play := Play_fromString cards_ (Some seat) in
  let playString := Play_toStrings play in
  match Play_value play with
  | None => exit INVALID_MOVE
  | Some playValue =>
      match players G !! seat with
      | None =>
          (* [hand] is [undefined]; [playString] is not empty, and the first
             call of [hand.includes] throws *)
          exit Throws
      | Some hand =>
          if negb (forallb (Js.includes hand) playString) then exit INVALID_MOVE
          else
            checkTable play playString playValue;;
            discardPlay seat hand play playString
      end
  end.

(** *** [pass] *)

Definition pass (ctx : Ctx) : Move unit :=
  G ← get;
  match lastPlay G with
  | None => exit INVALID_MOVE
  | Some last =>
      match getNext G ctx with
      | None => exit Diverges
      | Some next =>
          if bool_decide (player last = Some next)
          then modify (set_lastPlay None)
          else mret ()
      end
  end.

(** [endIf]. *)
Definition endIf (G : State) : bool := (length (winners G) =? 3)%nat.

(** * The vocabulary of the properties *)

(** ** Moves and rounds *)

(** A move was accepted when it returned normally, and rejected when it
    returned [INVALID_MOVE]. *)
Definition accepted (r : (Exit + unit) * State) : Prop := r.1 = inr ().
Definition rejected (r : (Exit + unit) * State) : Prop := r.1 = inl INVALID_MOVE.

(** The seat [i] positions after the current one in the rotation. *)
Definition seatAfter (ctx : Ctx) (i : nat) : nat :=
  ((playOrderPos ctx + i) `mod` numPlayers ctx)%nat.

(** One accepted move, by whichever seat the framework gave the turn to. *)
Definition step (G G' : State) : Prop :=
  ∃ ctx, (∃ cs, play ctx cs G = (inr (), G')) ∨ pass ctx G = (inr (), G').

(** The states of a round: what [setup] makes of a shuffled deck, and what
    accepted moves make of that. *)
Inductive reachable : State → Prop :=
| reachable_setup deck : deck ≡ₚ Card_newDeck → reachable (setup deck)
| reachable_step G G' : reachable G → step G G' → reachable G'.

(** The card texts in the hands, and those in the discarded groups, where
    an entry that is [undefined] is no card. *)
Definition hands (m : gmap nat (list CardStr)) : list CardStr :=
  concat (map_to_list m).*2.
Definition groupCards (g : list (option CardStr)) : list CardStr :=
  omap id g.
Definition discards (d : list (list (option CardStr))) : list CardStr :=
  concat (groupCards <$> d).
Definition allCards (G : State) : list CardStr :=
  hands (players G) ++ discards (discarded G).

(** The seats dealt so far are 0, 1, ... up to the number of hands. *)
Definition dense (m : gmap nat (list CardStr)) : Prop :=
  ∀ k, is_Some (m !! k) ↔ (k < size m)%nat.

(** Every winner is in [winners] once and has an empty hand. *)
Definition winners_ok (G : State) : Prop :=
  NoDup (winners G) ∧ ∀ s, s ∈ winners G → players G !! s = Some [].

(** What holds of the state all through a round: the four seats have a
    hand each, [remaining] has the sizes of the hands, the round has started
    exactly when something was discarded, and a play on the table has a
    value and an owner who still holds cards. *)
Definition round_ok (G : State) : Prop :=
  (∀ s, is_Some (players G !! s) ↔ (s < NUM_PLAYERS)%nat) ∧
  (∀ s, remaining G !! s = length <$> players G !! s) ∧
  (hasStarted G = true ↔ discarded G ≠ []) ∧
  (∀ pl, lastPlay G = Some pl →
     hasStarted G = true ∧ is_Some (Play_value pl) ∧
     ∃ s hand, player pl = Some s ∧ players G !! s = Some hand ∧ hand ≠ []).

(** A move as the framework delivers it: [Some cs] is [play (cs)], [None] is
    [pass], each with the [ctx] of the seat whose turn it is. *)
Definition runMove (G : State) (m : Ctx * option (list CardStr)) : option State :=
  match (match m.2 with Some cs => play m.1 cs | None => pass m.1 end) G with
  | (inr _, G') => Some G'
  | (inl _, _) => None
  end.

(** The state after a list of moves, if all of them are accepted. *)
Fixpoint run (G : State) (ms : list (Ctx * option (list CardStr))) : option State :=
  match ms with
  | [] => Some G
  | m :: ms' => match runMove G m with Some G' => run G' ms' | None => None end
  end.

(** ** The evaluator *)

(** The number of cards of a rank, the rank given as a property name. *)
Definition rankCount (k : string) (cs : list Card) : nat :=
  length (filter (λ c, Js.toStr (rank c) = k) cs).

(** What [straight] decides from the numbers [num] gives the cards, whether
    it returns a value at all: the size of the set of numbers, and the two
    tests on the sorted numbers. *)
Definition straightShape (nums : list Z) : bool :=
  (at_ nums 0 + 4 =? at_ nums 4) ||
  ((at_ nums 0 =? 0) &&
   (let nums' := Js.sort Js.ascending (<[0%nat := 13]> nums) in
    at_ nums' 0 + 4 =? at_ nums' 4)).

Definition straightNums (ns : list Z) : bool :=
  let numSet := Js.setOf ns in
  bool_decide (length numSet = 5%nat) &&
  straightShape (Js.sort Js.ascending numSet).

(** The five ranks that start at position [i] of an ordering of the ranks. *)
Definition window (order : string) (i : nat) : list (option ascii) :=
  Some <$> take 5 (drop i (chars order)).

(** The straights in the words of the specification: five consecutive ranks
    where 3 is the lowest and K the highest, or the run J, Q, K, A, 2. *)
Definition specStraight (ranks : list (option ascii)) : Prop :=
  (∃ i, (i ≤ 6)%nat ∧ ranks ≡ₚ window "3456789TJQK" i) ∨
  ranks ≡ₚ window "JQKA2" 0.

(** The straights of the code: five consecutive ranks where the ace is the
    lowest and K the highest, or the run T, J, Q, K, A; that is, five
    consecutive ranks of A 2 3 ... Q K A. *)
Definition aceLowOrHigh : string := "A23456789TJQKA".
Definition codeStraight (ranks : list (option ascii)) : Prop :=
  ∃ i, (i < 10)%nat ∧ ranks ≡ₚ window aceLowOrHigh i.

(** The numbers [num] gives the ranks of a window of [aceLowOrHigh]. *)
Definition numWindow (i : nat) : list Z :=
  (λ k, Z.of_nat (i + k) `mod` 13) <$> seq 0 5.

(** [num] reads the rank only, and on the ranks of the deck it can be read
    back. *)
Definition numOfRank (r : option ascii) : Z :=
  Z.rem (Js.indexOf RANKS (Js.toStr r) + 2) 13.
Definition rankOfNum (n : Z) : option ascii :=
  chars "A23456789TJQK" !! Z.to_nat n.

(** The numbers [lo], [lo + 1], ... ([k] of them), and the increasing lists
    of [n] numbers taken from an increasing list [dom]. *)
Fixpoint upFrom (lo : Z) (k : nat) : list Z :=
  match k with
  | O => []
  | S k' => lo :: upFrom (lo + 1) k'
  end.

Fixpoint choose (n : nat) (dom : list Z) : list (list Z) :=
  match dom, n with
  | _, O => [[]]
  | [], S _ => []
  | x :: dom', S n' => ((x ::.) <$> choose n' dom') ++ choose n dom'
  end.

(** The sorted numbers are those of a window of [aceLowOrHigh]. *)
Definition isWindow (nums : list Z) : bool :=
  existsb (λ i, bool_decide (nums = Js.sort Js.ascending (numWindow i))) (seq 0 10).

(** A text without whitespace. *)
Definition noSpace (s : string) : bool :=
  forallb (λ c, negb (Js.isSpace c)) (chars s).

(** ** Rounds and hands to evaluate the code on *)

(** The deck dealt as [Card.newDeck] lists it (the shuffle that moves
    nothing): seat 0 holds 3C to 6C and leads. *)
Definition dealtInOrder : State := setup Card_newDeck.
Definition seatCtx (s : nat) : Ctx := mkCtx s s NUM_PLAYERS.
Definition seat0 : Ctx := seatCtx 0.
Definition hand0 : list CardStr :=
  ["3C"; "3S"; "3H"; "3D"; "4C"; "4S"; "4H"; "4D"; "5C"; "5S"; "5H"; "5D"; "6C"].

(** Seat 0 leads with four threes and a four, all pass, it leads three
    fours, all pass, and it is about to play its last five cards. *)
Definition lastFive : State :=
  default dealtInOrder
    (run dealtInOrder
       [(seatCtx 0, Some ["3C"; "3S"; "3H"; "3D"; "4C"]);
        (seatCtx 1, None); (seatCtx 2, None); (seatCtx 3, None);
        (seatCtx 0, Some ["4S"; "4H"; "4D"]);
        (seatCtx 1, None); (seatCtx 2, None); (seatCtx 3, None)]).

(** Five cards with the ranks J, Q, K, A, 2, and five with A, 2, 3, 4, 5. *)
Definition wraparound : list Card :=
  Card_fromString <$> ["JC"; "QS"; "KH"; "AD"; "2C"].
Definition wheel : list Card :=
  Card_fromString <$> ["3C"; "AC"; "2S"; "4H"; "5D"].

(** * Properties *)

(** ** Turn order *)

Section GetNext.
Context (G : State) (ctx : Ctx).

Local Abbreviation seatAt := (seatAfter ctx).

Lemma includes_elem_of {A} `{EqDecision A} (l : list A) (x : A) :
  Js.includes l x = true ↔ x ∈ l.
Proof. unfold Js.includes. apply bool_decide_eq_true. Qed.

Lemma getNext_loop_Some fuel i s :
  getNext_loop fuel G ctx i = Some s ↔
  ∃ k, (k < fuel)%nat ∧ s = seatAt (i + k) ∧ (s ∉ winners G) ∧
       (∀ j, (j < k)%nat → seatAt (i + j) ∈ winners G).
Proof.
  revert i. induction fuel as [|fuel IH]; intros i; simpl.
  - split; [done | intros (k & ? & _); lia].
  - destruct (Js.includes (winners G) _) eqn:Hw.
    + apply includes_elem_of in Hw. rewrite IH. split.
      * intros (k & Hk & -> & Hs & Hj). exists (S k).
        replace (i + S k)%nat with (i + 1 + k)%nat by lia.
        repeat split; [lia | done |].
        intros [|j] ?; [by rewrite Nat.add_0_r |].
        replace (i + S j)%nat with (i + 1 + j)%nat by lia. apply Hj. lia.
      * intros (k & Hk & -> & Hs & Hj). destruct k as [|k].
        { rewrite Nat.add_0_r in Hs. done. }
        exists k. replace (i + 1 + k)%nat with (i + S k)%nat by lia.
        repeat split; [lia | done |].
        intros j ?. replace (i + 1 + j)%nat with (i + S j)%nat by lia.
        apply Hj. lia.
    + assert (seatAt i ∉ winners G) as Hn.
      { intros Hin. apply includes_elem_of in Hin. unfold seatAfter in Hin. congruence. }
      split.
      * intros [= <-]. exists 0%nat. rewrite Nat.add_0_r.
        repeat split; [lia | done |]. intros; lia.
      * intros (k & Hk & -> & Hs & Hj). destruct k as [|k].
        { by rewrite Nat.add_0_r. }
        exfalso. apply Hn. specialize (Hj 0%nat). rewrite Nat.add_0_r in Hj.
        apply Hj. lia.
Qed.

Lemma getNext_loop_None fuel i :
  getNext_loop fuel G ctx i = None ↔
  ∀ k, (k < fuel)%nat → seatAt (i + k) ∈ winners G.
Proof.
  revert i. induction fuel as [|fuel IH]; intros i; simpl.
  - split; [intros; lia | done].
  - destruct (Js.includes (winners G) _) eqn:Hw.
    + apply includes_elem_of in Hw. rewrite IH. split.
      * intros H [|k] ?; [by rewrite Nat.add_0_r |].
        replace (i + S k)%nat with (i + 1 + k)%nat by lia. apply H. lia.
      * intros H k ?. replace (i + 1 + k)%nat with (i + S k)%nat by lia.
        apply H. lia.
    + split; [done |]. intros H. specialize (H 0%nat). rewrite Nat.add_0_r in H.
      assert (seatAt i ∈ winners G) as Hin by (apply H; lia).
      apply includes_elem_of in Hin. unfold seatAfter in Hin. congruence.
Qed.

(** More fuel does not change what the loop returned. *)
Lemma getNext_loop_mono fuel fuel' i s :
  (fuel ≤ fuel')%nat →
  getNext_loop fuel G ctx i = Some s → getNext_loop fuel' G ctx i = Some s.
Proof.
  intros Hle. rewrite !getNext_loop_Some.
  intros (k & ? & ?). exists k. split; [lia | done].
Qed.

(** Every seat is visited within [numPlayers] iterations. *)
Lemma seatAt_covers i seat :
  (seat < numPlayers ctx)%nat →
  ∃ k, (k < numPlayers ctx)%nat ∧ seatAt (i + k) = seat.
Proof.
  intros Hlt. set (n := numPlayers ctx) in *.
  exists ((seat + n - (playOrderPos ctx + i) `mod` n) `mod` n)%nat.
  split; [apply Nat.mod_upper_bound; lia |].
  unfold seatAfter. fold n.
  pose proof (Nat.mod_upper_bound (playOrderPos ctx + i) n ltac:(lia)) as Hb.
  rewrite Nat.add_assoc, Nat.Div0.add_mod_idemp_r.
  rewrite <- Nat.Div0.add_mod_idemp_l.
  replace ((playOrderPos ctx + i) `mod` n + (seat + n - (playOrderPos ctx + i) `mod` n))%nat
    with (seat + 1 * n)%nat by lia.
  rewrite Nat.Div0.mod_add. apply Nat.mod_small. lia.
Qed.

Lemma seatAt_bound i : (0 < numPlayers ctx)%nat → (seatAt i < numPlayers ctx)%nat.
Proof. intros. apply Nat.mod_upper_bound. lia. Qed.

(** A loop that has not returned after [numPlayers] iterations never
    returns: [None] from [getNext] is non-termination. *)
Lemma getNext_None_diverges :
  (0 < numPlayers ctx)%nat →
  getNext G ctx = None → ∀ fuel, getNext_loop fuel G ctx 1 = None.
Proof.
  intros Hn. unfold getNext. rewrite getNext_loop_None. intros Hall fuel.
  apply getNext_loop_None. intros k _.
  destruct (seatAt_covers 1 (seatAt (1 + k)) (seatAt_bound _ Hn)) as (k' & Hk' & <-).
  by apply Hall.
Qed.


End GetNext.

(** C10. With fewer than all the seats of the rotation in [winners], the
    loop of [getNext] returns, [k] iterations in for some [k] from 1 to the
    number of seats, the seat [k] positions after the current one: that seat
    is not in [winners] and every seat before it on the way is.  With all the
    seats in [winners] the loop returns for no number of iterations. *)
Theorem getNext_terminates_first_active (G : State) (ctx : Ctx) :
  (0 < numPlayers ctx)%nat →
  ((∃ seat, (seat < numPlayers ctx)%nat ∧ seat ∉ winners G) →
     ∃ k, (1 ≤ k ≤ numPlayers ctx)%nat ∧
       (∀ fuel, (k ≤ fuel)%nat →
          getNext_loop fuel G ctx 1 = Some (seatAfter ctx k)) ∧
       getNext G ctx = Some (seatAfter ctx k) ∧
       (seatAfter ctx k ∉ winners G) ∧
       (∀ j, (1 ≤ j < k)%nat → seatAfter ctx j ∈ winners G)) ∧
  ((∀ seat, (seat < numPlayers ctx)%nat → seat ∈ winners G) →
     ∀ fuel, getNext_loop fuel G ctx 1 = None).
Proof.
  intros Hn. split.
  - intros (seat & Hlt & Hnot).
    destruct (getNext G ctx) as [s|] eqn:Hnext.
    + pose proof Hnext as Hs. unfold getNext in Hs.
      apply getNext_loop_Some in Hs as (k & Hk & -> & Hs & Hj).
      exists (1 + k)%nat. split; [lia |]. split; [| split; [done | split; [done |]]].
      * intros fuel Hf. apply getNext_loop_Some. exists k.
        split; [lia | done].
      * intros j Hj'. replace j with (1 + (j - 1))%nat by lia. apply Hj. lia.
    + exfalso. unfold getNext in Hnext. rewrite getNext_loop_None in Hnext.
      destruct (seatAt_covers ctx 1 seat Hlt) as (k & Hk & Hseat).
      apply Hnot. rewrite <- Hseat. by apply Hnext.
  - intros Hall fuel. apply getNext_loop_None. intros k _.
    apply Hall. apply Nat.mod_upper_bound. lia.
Qed.

Lemma getNext_terminates_first_active_witness :
  let G := mkState ∅ ∅ 0 true [] None [1%nat; 2%nat] in
  let ctx := mkCtx 0 0 4 in
  (0 < numPlayers ctx)%nat ∧
  ∃ k, (1 ≤ k ≤ numPlayers ctx)%nat ∧
    (∀ fuel, (k ≤ fuel)%nat →
       getNext_loop fuel G ctx 1 = Some (seatAfter ctx k)) ∧
    getNext G ctx = Some (seatAfter ctx k) ∧
    (seatAfter ctx k ∉ winners G) ∧
    (∀ j, (1 ≤ j < k)%nat → seatAfter ctx j ∈ winners G).
Proof.
  intros G ctx.
  assert (0 < numPlayers ctx)%nat as Hn by (simpl; lia).
  split; [exact Hn |].
  apply (proj1 (getNext_terminates_first_active G ctx Hn)).
  exists 0%nat. split; [simpl; lia |].
  simpl. rewrite !elem_of_cons, elem_of_nil. lia.
Defined.

(** ** The moves *)

Section Moves.
Context (ctx : Ctx).

Local Abbreviation seat := (currentPlayer ctx).

(** What [checkTable] does, case by case. *)
Lemma checkTable_inv pl ps v G r G' :
  checkTable pl ps v G = (r, G') →
  (r = inl INVALID_MOVE ∧ G' = G ∧
     match lastPlay G with
     | None => hasStarted G = false ∧ Card_toString Card_lowest ∉ ps
     | Some last =>
         length (cards last) ≠ length (cards pl) ∨
         v < default 0 (Play_value last)
     end) ∨
  (r = inr () ∧
     match lastPlay G with
     | None =>
         if hasStarted G then G' = G
         else Card_toString Card_lowest ∈ ps ∧ G' = set_hasStarted true G
     | Some last =>
         G' = G ∧ length (cards last) = length (cards pl) ∧
         default 0 (Play_value last) ≤ v
     end).
Proof.
  unfold checkTable, mbind, Move_bind, get, exit, modify, mret, Move_ret.
  destruct (lastPlay G) as [last|] eqn:Hlast.
  - destruct (length (cards last) =? length (cards pl))%nat eqn:Hlen; simpl.
    + apply Nat.eqb_eq in Hlen.
      destruct (v <? default 0 (Play_value last)) eqn:Hv; intros [= <- <-].
      * left. repeat split. right. lia.
      * right. repeat split; [done | lia].
    + apply Nat.eqb_neq in Hlen. intros [= <- <-]. left. repeat split. by left.
  - destruct (hasStarted G) eqn:Hs; simpl.
    + intros [= <- <-]. by right.
    + destruct (Js.includes ps _) eqn:Hin; simpl; intros [= <- <-].
      * apply includes_elem_of in Hin. by right.
      * left. repeat split. intros Hin'%includes_elem_of. congruence.
Qed.

(** The state [discardPlay] leaves. *)
Lemma discardPlay_eq hand pl ps G :
  discardPlay seat hand pl ps G =
  let discard := (takeFromHand hand ps).1 in
  let hand' := (takeFromHand hand ps).2 in
  (inr (),
   mkState (<[seat := hand']> (players G)) (<[seat := length hand']> (remaining G))
     (firstTurn G) (hasStarted G) (discarded G ++ [discard])
     (if (length hand' =? 0)%nat then None else Some pl)
     (if (length hand' =? 0)%nat then winners G ++ [seat] else winners G)).
Proof.
  unfold discardPlay. destruct (takeFromHand hand ps) as [discard hand'].
  unfold mbind, Move_bind, modify, mret, Move_ret. simpl.
  by destruct (length hand' =? 0)%nat.
Qed.

(** An accepted [play], step by step. *)
Lemma play_accepted_inv cs G G' :
  play ctx cs G = (inr (), G') →
  let pl := Play_fromString cs (Some seat) in
  ∃ v hand G1,
    Play_value pl = Some v ∧
    players G !! seat = Some hand ∧
    (∀ c, c ∈ Play_toStrings pl → c ∈ hand) ∧
    checkTable pl (Play_toStrings pl) v G = (inr (), G1) ∧
    discardPlay seat hand pl (Play_toStrings pl) G1 = (inr (), G').
Proof.
  intros Hplay pl. revert Hplay.
  unfold play, mbind at 1, Move_bind at 1, get. fold pl.
  destruct (Play_value pl) as [v|]; [| by intros [=]].
  destruct (players G !! seat) as [hand|]; [| by intros [=]].
  destruct (forallb _ _) eqn:Hall; simpl; [| by intros [=]].
  unfold mbind, Move_bind.
  destruct (checkTable pl _ v G) as [[e|[]] G1] eqn:Hc; [by intros [=] |].
  intros Hd. exists v, hand, G1. repeat split; try done.
  intros c Hc'. rewrite forallb_forall in Hall.
  apply includes_elem_of, Hall, list_elem_of_In, Hc'.
Qed.

(** A rejected [play] or [pass] hands back the state it was given. *)
Lemma play_rejected_unchanged cs G e G' :
  play ctx cs G = (inl e, G') → G' = G.
Proof.
  unfold play, mbind at 1, Move_bind at 1, get.
  destruct (Play_value _) as [v|]; [| by intros [= _ <-]].
  destruct (players G !! seat) as [hand|]; [| by intros [= _ <-]].
  destruct (forallb _ _); simpl; [| by intros [= _ <-]].
  unfold mbind, Move_bind.
  destruct (checkTable _ _ v G) as [[e'|[]] G1] eqn:Hc.
  - apply checkTable_inv in Hc as [(_ & -> & _) | (? & _)]; [| done].
    by intros [= _ <-].
  - rewrite discardPlay_eq. by intros [=].
Qed.

Lemma pass_rejected_unchanged G e G' :
  pass ctx G = (inl e, G') → G' = G.
Proof.
  unfold pass, mbind, Move_bind, get, exit.
  destruct (lastPlay G) as [last|]; [| by intros [= _ <-]].
  destruct (getNext G ctx) as [next|]; [| by intros [= _ <-]].
  by destruct (bool_decide _).
Qed.

End Moves.

(** ** Sorting and card texts *)

(** Membership in a list that is written out. *)
Ltac in_list := repeat first [apply list_elem_of_here | apply list_elem_of_further].

Lemma insertBy_Permutation {A} (cmp : A → A → Z) x l :
  Js.insertBy cmp x l ≡ₚ x :: l.
Proof.
  induction l as [|y l IH]; simpl; [done |].
  destruct (0 <? cmp x y); [| done].
  rewrite IH. apply Permutation_swap.
Qed.

Lemma sort_Permutation {A} (cmp : A → A → Z) l : Js.sort cmp l ≡ₚ l.
Proof.
  induction l as [|x l IH]; simpl; [done |].
  by rewrite insertBy_Permutation, IH.
Qed.

Lemma sort_length {A} (cmp : A → A → Z) l : length (Js.sort cmp l) = length l.
Proof. by rewrite sort_Permutation. Qed.

Lemma Card_toString_lowest c :
  Card_toString c = Card_toString Card_lowest ↔ c = Card_lowest.
Proof.
  split; [| by intros ->].
  destruct c as [[r|] [s|]]; simpl; intros [=]; by subst.
Qed.

Lemma Play_cards_Permutation cs p :
  cards (Play_fromString cs p) ≡ₚ Card_fromString <$> cs.
Proof. apply sort_Permutation. Qed.

Lemma lowest_in_play cs p :
  Card_toString Card_lowest ∈ Play_toStrings (Play_fromString cs p) ↔
  Card_lowest ∈ Card_fromString <$> cs.
Proof.
  unfold Play_toStrings. rewrite Play_cards_Permutation, list_elem_of_fmap.
  split.
  - intros (c & Hc%eq_sym%Card_toString_lowest & Hin). by subst.
  - intros Hin. by exists Card_lowest.
Qed.

(** ** The first play of a round *)

(** C7. Where there is no [lastPlay] and the round has not started, [play]
    returns [INVALID_MOVE] on a submission without the card 3C; the text
    ["3C"] alone, whose value is 0, is accepted from a seat that holds it;
    and every play accepted there sets [hasStarted]. *)
Theorem first_play_needs_lowest (ctx : Ctx) (G : State) (hand : list CardStr) :
  lastPlay G = None →
  hasStarted G = false →
  players G !! currentPlayer ctx = Some hand →
  (∀ cs, Card_lowest ∉ Card_fromString <$> cs → rejected (play ctx cs G)) ∧
  (Play_value (Play_fromString ["3C"] (Some (currentPlayer ctx))) = Some 0 ∧
   ("3C" ∈ hand → accepted (play ctx ["3C"] G))) ∧
  (∀ cs, accepted (play ctx cs G) → hasStarted (play ctx cs G).2 = true).
Proof.
  intros Hlast Hstart Hhand. split; [| split; [split |]].
  - intros cs Hlow. unfold rejected, play, mbind at 1, Move_bind at 1, get.
    destruct (Play_value _) as [v|]; [| done]. rewrite Hhand.
    destruct (forallb _ _); [| done]. simpl. unfold mbind, Move_bind.
    destruct (checkTable _ _ v G) as [[e|[]] G1] eqn:Hc.
    + by apply checkTable_inv in Hc as [(-> & _) | (? & _)].
    + apply checkTable_inv in Hc as [(? & _) | (_ & Hc)]; [done |].
      rewrite Hlast, Hstart in Hc. destruct Hc as [Hin _].
      by apply lowest_in_play in Hin.
  - done.
  - intros Hin. unfold accepted, play, mbind at 1, Move_bind at 1, get.
    change (Play_value (Play_fromString ["3C"] (Some (currentPlayer ctx))))
      with (Some 0).
    rewrite Hhand. cbn [Play_toStrings Play_fromString newPlay cards fmap list_fmap Js.sort foldr Js.insertBy forallb].
    apply includes_elem_of in Hin.
    change (Card_toString (Card_fromString "3C")) with "3C". rewrite Hin. simpl.
    unfold mbind, Move_bind, checkTable, mbind, Move_bind, get.
    rewrite Hlast, Hstart. simpl. by rewrite discardPlay_eq.
  - intros cs Hacc. destruct (play ctx cs G) as [r G'] eqn:Hplay.
    unfold accepted in Hacc. simpl in *. subst r.
    apply play_accepted_inv in Hplay as (v & hand' & G1 & _ & _ & _ & Hc & Hd).
    apply checkTable_inv in Hc as [(? & _) | (_ & Hc)]; [done |].
    rewrite Hlast, Hstart in Hc. destruct Hc as [_ ->].
    rewrite discardPlay_eq in Hd. by injection Hd as <-.
Qed.

Lemma first_play_needs_lowest_witness :
  (lastPlay dealtInOrder = None ∧ hasStarted dealtInOrder = false ∧
   players dealtInOrder !! currentPlayer seat0 = Some hand0) ∧
  rejected (play seat0 ["4C"] dealtInOrder) ∧
  accepted (play seat0 ["3C"] dealtInOrder) ∧
  hasStarted (play seat0 ["3C"] dealtInOrder).2 = true.
Proof.
  assert (lastPlay dealtInOrder = None) as H1 by (vm_compute; reflexivity).
  assert (hasStarted dealtInOrder = false) as H2 by (vm_compute; reflexivity).
  assert (players dealtInOrder !! currentPlayer seat0 = Some hand0) as H3
    by (vm_compute; reflexivity).
  split; [done |].
  destruct (first_play_needs_lowest seat0 dealtInOrder hand0 H1 H2 H3)
    as (Hrej & [_ Hacc] & Hstarted).
  assert ("3C" ∈ hand0) as Hin by (apply includes_elem_of; vm_compute; reflexivity).
  split; [| split].
  - apply Hrej. intros Hin'. apply includes_elem_of in Hin'.
    vm_compute in Hin'. discriminate.
  - by apply Hacc.
  - by apply Hstarted, Hacc.
Defined.

(** ** The test against the table *)

(** The test of [play] against the table, whatever the state: an accepted
    [play] has as many cards as [lastPlay] and a value that is not lower
    than the value of [lastPlay] (which counts as 0 where it is [null]); a
    play of another length or of a lower value returns [INVALID_MOVE]. *)
Lemma play_table_test (ctx : Ctx) (G : State) (last : Play)
    (cs : list CardStr) :
  lastPlay G = Some last →
  let pl := Play_fromString cs (Some (currentPlayer ctx)) in
  (accepted (play ctx cs G) →
     length (cards pl) = length (cards last) ∧
     ∃ v, Play_value pl = Some v ∧ default 0 (Play_value last) ≤ v) ∧
  (is_Some (players G !! currentPlayer ctx) →
     length (cards pl) ≠ length (cards last) ∨
     (∃ v, Play_value pl = Some v ∧ v < default 0 (Play_value last)) →
     rejected (play ctx cs G)).
Proof.
  intros Hlast pl. split.
  - intros Hacc. destruct (play ctx cs G) as [r G'] eqn:Hplay.
    unfold accepted in Hacc. simpl in Hacc. subst r.
    apply play_accepted_inv in Hplay as (v & hand & G1 & Hv & _ & _ & Hc & _).
    apply checkTable_inv in Hc as [(? & _) | (_ & Hc)]; [done |].
    rewrite Hlast in Hc. destruct Hc as (_ & Hlen & Hle).
    split; [done |]. by exists v.
  - intros [hand Hhand] Hbad.
    unfold rejected, play, mbind at 1, Move_bind at 1, get. fold pl.
    destruct (Play_value pl) as [v|] eqn:Hv; [| done]. rewrite Hhand.
    destruct (forallb _ _); [| done]. simpl. unfold mbind, Move_bind.
    destruct (checkTable _ _ v G) as [[e|[]] G1] eqn:Hc.
    + by apply checkTable_inv in Hc as [(-> & _) | (? & _)].
    + apply checkTable_inv in Hc as [(? & _) | (_ & Hc)]; [done |].
      rewrite Hlast in Hc. destruct Hc as (_ & Hlen & Hle).
      destruct Hbad as [Hne | (v' & [= <-] & Hlt)]; [by rewrite Hlen in Hne | lia].
Qed.

(** ** Cards that are not in the hand *)

(** A submission with a card text the hand does not have is rejected. *)
Lemma play_not_from_hand (ctx : Ctx) (G : State) (hand cs : list CardStr) c :
  players G !! currentPlayer ctx = Some hand →
  c ∈ Play_toStrings (Play_fromString cs (Some (currentPlayer ctx))) →
  c ∉ hand →
  rejected (play ctx cs G).
Proof.
  intros Hhand Hc Hnot.
  unfold rejected, play, mbind at 1, Move_bind at 1, get.
  destruct (Play_value _) as [v|]; [| done]. rewrite Hhand.
  destruct (forallb _ _) eqn:Hall; [| done]. exfalso.
  rewrite forallb_forall in Hall. apply Hnot, includes_elem_of, Hall.
  by apply list_elem_of_In.
Qed.

(** Every rejection hands back the state untouched. *)
Lemma rejected_unchanged (ctx : Ctx) (G : State) (cs : list CardStr) :
  (rejected (play ctx cs G) → (play ctx cs G).2 = G) ∧
  (rejected (pass ctx G) → (pass ctx G).2 = G).
Proof.
  unfold rejected. split.
  - destruct (play ctx cs G) as [r G'] eqn:H. simpl. intros ->.
    by apply play_rejected_unchanged in H.
  - destruct (pass ctx G) as [r G'] eqn:H. simpl. intros ->.
    by apply pass_rejected_unchanged in H.
Qed.

(** C3, at the input where the code departs from it: seat 0 holds one 3C
    and submits it twice.  The test [every (c => hand.includes (c))] does
    not count, the play is accepted as a pair, and [splice (-1, 1)] takes
    the last card of the hand, 6C, which was not submitted. *)
Theorem play_same_card_twice :
  players dealtInOrder !! 0%nat = Some hand0 ∧
  let r := play seat0 ["3C"; "3C"] dealtInOrder in
  accepted r ∧
  players r.2 !! 0%nat =
    Some ["3S"; "3H"; "3D"; "4C"; "4S"; "4H"; "4D"; "5C"; "5S"; "5H"; "5D"] ∧
  discarded r.2 = [[Some "3C"; Some "6C"]].
Proof. vm_compute. repeat split. Qed.

(** ** The evaluator *)

(** *** Sorted arrays *)

Section Sorted.
Context {A : Type} (cmp : A → A → Z) (key : A → Z).
Hypothesis cmp_key : ∀ x y, (0 <? cmp x y) = (key y <? key x).

Local Abbreviation le := (λ x y, key x ≤ key y).

Lemma insertBy_sorted x l :
  StronglySorted le l → StronglySorted le (Js.insertBy cmp x l).
Proof.
  induction 1 as [|y l Hl IH Hy]; simpl.
  - by repeat constructor.
  - rewrite cmp_key. destruct (key y <? key x) eqn:Hlt.
    + constructor; [done |].
      rewrite insertBy_Permutation. constructor; [lia | done].
    + constructor; [by constructor |].
      constructor; [lia |].
      eapply Forall_impl; [exact Hy |]. simpl. intros; lia.
Qed.

Lemma sort_sorted l : StronglySorted le (Js.sort cmp l).
Proof.
  induction l as [|x l IH]; simpl; [constructor | by apply insertBy_sorted].
Qed.

(** The first element of the sorted array has the least key and the last
    one the greatest. *)
Lemma sort_head_least l x rest y :
  Js.sort cmp l = x :: rest → y ∈ l → key x ≤ key y.
Proof.
  intros Hs Hy. pose proof (sort_sorted l) as Hsorted.
  rewrite <- (sort_Permutation cmp), Hs in Hy. rewrite Hs in Hsorted.
  apply StronglySorted_inv in Hsorted as [_ Hall].
  apply elem_of_cons in Hy as [-> | Hy]; [lia |].
  rewrite Forall_forall in Hall. by apply Hall.
Qed.

Lemma sorted_last_greatest l x y :
  StronglySorted le l → last l = Some x → y ∈ l → key y ≤ key x.
Proof.
  induction 1 as [|z l Hl IH Hz]; [done |].
  destruct l as [|z' l'].
  - intros [= ->] ->%list_elem_of_singleton. lia.
  - intros Hlast Hy. change (last (z' :: l') = Some x) in Hlast.
    apply elem_of_cons in Hy as [-> | Hy]; [| by apply IH].
    rewrite Forall_forall in Hz. apply Hz.
    apply last_Some in Hlast as [l'' Hl'']. rewrite Hl''.
    apply elem_of_app. right. by apply list_elem_of_singleton.
Qed.

Lemma sort_last_greatest l x y :
  last (Js.sort cmp l) = Some x → y ∈ l → key y ≤ key x.
Proof.
  intros Hlast Hy. eapply sorted_last_greatest; [apply sort_sorted | done |].
  by rewrite sort_Permutation.
Qed.
End Sorted.

Lemma byValue_key x y : (0 <? byValue x y) = (Card_value y <? Card_value x).
Proof. unfold byValue. by destruct (Card_value y <? Card_value x). Qed.

Lemma ascending_key x y : (0 <? Js.ascending x y) = (y <? x).
Proof.
  unfold Js.ascending. destruct (x <? y) eqn:H1, (y <? x) eqn:H2; try done; lia.
Qed.

(** *** [withSameRank] *)

#[global] Instance rankCount_Permutation k : Proper ((≡ₚ) ==> (=)) (rankCount k).
Proof. intros l1 l2 H. unfold rankCount. by rewrite H. Qed.

Lemma toStr_inj o1 o2 : Js.toStr o1 = Js.toStr o2 → o1 = o2.
Proof. destruct o1, o2; simpl; intros [=]; by subst. Qed.

Lemma freqs_foldl_count cs (m : gmap string nat) k :
  default 0%nat (foldl freqStep m cs !! k) =
  (default 0%nat (m !! k) + rankCount k cs)%nat.
Proof.
  revert m. induction cs as [|c cs IH]; intros m; simpl.
  - unfold rankCount. simpl. lia.
  - rewrite IH. unfold rankCount, freqStep. rewrite filter_cons.
    destruct (decide (Js.toStr (rank c) = k)) as [-> | Hne].
    + rewrite lookup_insert_eq. simpl. lia.
    + by rewrite lookup_insert_ne.
Qed.

Lemma freqs_foldl_pos cs (m : gmap string nat) :
  (∀ k n, m !! k = Some n → (0 < n)%nat) →
  ∀ k n, foldl freqStep m cs !! k = Some n → (0 < n)%nat.
Proof.
  revert m. induction cs as [|c cs IH]; intros m Hm; simpl; [done |].
  apply IH. intros k n. unfold freqStep.
  destruct (decide (Js.toStr (rank c) = k)) as [-> | Hne].
  - rewrite lookup_insert_eq. intros [= <-]. lia.
  - rewrite lookup_insert_ne by done. apply Hm.
Qed.

(** [withSameRank.has (n)] says that some rank occurs exactly [n] times. *)
Lemma withSameRank_has_count p n :
  (0 < n)%nat →
  withSameRank_has p n = true ↔ ∃ k, rankCount k (cards p) = n.
Proof.
  intros Hn. unfold withSameRank_has. rewrite bool_decide_eq_true.
  rewrite list_elem_of_fmap. split.
  - intros ([k n'] & -> & Hin%elem_of_map_to_list). exists k. simpl.
    pose proof (freqs_foldl_count (cards p) ∅ k) as Hc.
    unfold rankFreqs in Hin. rewrite Hin, lookup_empty in Hc. simpl in Hc. lia.
  - intros [k Hk]. exists (k, n). split; [done |]. apply elem_of_map_to_list.
    pose proof (freqs_foldl_count (cards p) ∅ k) as Hc.
    rewrite lookup_empty in Hc. simpl in Hc. unfold rankFreqs.
    destruct (foldl _ _ _ !! k) as [n'|]; simpl in Hc; [f_equal; lia | lia].
Qed.

Lemma withSameRank_has_perm cs cs' p p' n :
  cs ≡ₚ cs' → withSameRank_has (mkPlay cs p) n = withSameRank_has (mkPlay cs' p') n.
Proof.
  intros Hp. destruct (decide (0 < n)%nat) as [Hn|Hn].
  - apply eq_true_iff_eq. rewrite !withSameRank_has_count by done. simpl.
    by setoid_rewrite Hp.
  - assert (n = 0%nat) as -> by lia.
    assert (∀ cs p, withSameRank_has (mkPlay cs p) 0 = false) as H0; [| by rewrite !H0].
    clear. intros cs p. apply bool_decide_eq_false.
    intros ([k n'] & Hz & Hin%elem_of_map_to_list)%list_elem_of_fmap.
    simpl in *. subst n'.
    eapply (freqs_foldl_pos _ ∅) in Hin; [lia |]. intros ??. by rewrite lookup_empty.
Qed.

Lemma pair_same_rank a b :
  (∃ k, rankCount k [a; b] = 2%nat) ↔ rank a = rank b.
Proof.
  unfold rankCount. split.
  - intros [k Hk]. rewrite !filter_cons, filter_nil in Hk.
    repeat case_decide; simpl in Hk; try lia. apply toStr_inj. congruence.
  - intros Heq. exists (Js.toStr (rank a)). rewrite !filter_cons, filter_nil.
    rewrite Heq. repeat case_decide; simpl; congruence.
Qed.

Lemma trio_same_rank a b c :
  (∃ k, rankCount k [a; b; c] = 3%nat) ↔ rank a = rank b ∧ rank b = rank c.
Proof.
  unfold rankCount. split.
  - intros [k Hk]. rewrite !filter_cons, filter_nil in Hk.
    repeat case_decide; simpl in Hk; try lia. split; apply toStr_inj; congruence.
  - intros [Hab Hbc]. exists (Js.toStr (rank a)). rewrite !filter_cons, filter_nil.
    rewrite Hab, Hbc. repeat case_decide; simpl; congruence.
Qed.

Lemma withSameRank_pair cs a b p :
  cs ≡ₚ [a; b] →
  withSameRank_has (mkPlay cs p) 2 = bool_decide (rank a = rank b).
Proof.
  intros Hp. rewrite (withSameRank_has_perm _ _ p p 2 Hp).
  apply eq_true_iff_eq.
  rewrite withSameRank_has_count, bool_decide_eq_true by lia.
  apply pair_same_rank.
Qed.

Lemma withSameRank_trio cs a b c p :
  cs ≡ₚ [a; b; c] →
  withSameRank_has (mkPlay cs p) 3 = bool_decide (rank a = rank b ∧ rank b = rank c).
Proof.
  intros Hp. rewrite (withSameRank_has_perm _ _ p p 3 Hp).
  apply eq_true_iff_eq.
  rewrite withSameRank_has_count, bool_decide_eq_true by lia.
  apply trio_same_rank.
Qed.

(** *** Pairs and trios *)

(** C5. Two cards have a value exactly when they have the same rank, and it
    is the greater of their two values.  Three cards have a value exactly
    when they all have the same rank, and it is the least of their three
    values, which is the value of the card of the lowest suit among them.
    Otherwise the value is [null]. *)
Theorem pair_trio_value :
  (∀ a b p,
     Play_value (newPlay [a; b] p) =
     if decide (rank a = rank b)
     then Some (Z.max (Card_value a) (Card_value b)) else None) ∧
  (∀ a b c p,
     Play_value (newPlay [a; b; c] p) =
     if decide (rank a = rank b ∧ rank b = rank c)
     then Some (Z.min (Card_value a) (Z.min (Card_value b) (Card_value c)))
     else None) ∧
  (∀ a b c x,
     rank a = rank b → rank b = rank c → x ∈ [a; b; c] →
     Card_value x = Z.min (Card_value a) (Z.min (Card_value b) (Card_value c)) ↔
     ∀ y, y ∈ [a; b; c] → suitIndex x ≤ suitIndex y).
Proof.
  split; [| split].
  - intros a b p. unfold Play_value, newPlay. cbn [cards].
    pose proof (sort_Permutation byValue [a; b]) as Hperm.
    pose proof (sort_length byValue [a; b]) as Hlen.
    destruct (Js.sort byValue [a; b]) as [|x [|y [|? ?]]] eqn:Hs; try done.
    cbn [length]. rewrite (withSameRank_pair _ a b) by done.
    destruct (decide (rank a = rank b)) as [Heq|Hne].
    + rewrite bool_decide_eq_true_2 by done. simpl. f_equal.
      assert (last (Js.sort byValue [a; b]) = Some y) as Hlast by by rewrite Hs.
      pose proof (sort_last_greatest byValue Card_value byValue_key _ _ a Hlast) as Ha.
      pose proof (sort_last_greatest byValue Card_value byValue_key _ _ b Hlast) as Hb.
      assert (y ∈ [a; b]) as Hy by (rewrite <- Hperm; in_list).
      rewrite !elem_of_cons, elem_of_nil in Hy.
      specialize (Ha ltac:(in_list)). specialize (Hb ltac:(in_list)).
      destruct Hy as [-> | [-> | []]]; lia.
    + by rewrite bool_decide_eq_false_2.
  - intros a b c p. unfold Play_value, newPlay. cbn [cards].
    pose proof (sort_Permutation byValue [a; b; c]) as Hperm.
    pose proof (sort_length byValue [a; b; c]) as Hlen.
    destruct (Js.sort byValue [a; b; c]) as [|x [|y [|z [|? ?]]]] eqn:Hs; try done.
    cbn [length]. rewrite (withSameRank_trio _ a b c) by done.
    destruct (decide (rank a = rank b ∧ rank b = rank c)) as [Heq|Hne].
    + rewrite bool_decide_eq_true_2 by done. simpl. f_equal.
      pose proof (sort_head_least byValue Card_value byValue_key _ _ _ a Hs) as Ha.
      pose proof (sort_head_least byValue Card_value byValue_key _ _ _ b Hs) as Hb.
      pose proof (sort_head_least byValue Card_value byValue_key _ _ _ c Hs) as Hc.
      assert (x ∈ [a; b; c]) as Hx by (rewrite <- Hperm; in_list).
      rewrite !elem_of_cons, elem_of_nil in Hx.
      specialize (Ha ltac:(in_list)). specialize (Hb ltac:(in_list)).
      specialize (Hc ltac:(in_list)).
      destruct Hx as [-> | [-> | [-> | []]]]; lia.
    + by rewrite bool_decide_eq_false_2.
  - intros a b c x Hab Hbc Hx.
    assert (rankIndex a = rankIndex b ∧ rankIndex b = rankIndex c) as [Ha Hb].
    { unfold rankIndex. by rewrite Hab, Hbc. }
    unfold Card_value. rewrite Ha, Hb.
    rewrite !elem_of_cons, elem_of_nil in Hx. split.
    + intros Hmin y Hy. rewrite !elem_of_cons, elem_of_nil in Hy.
      assert (rankIndex x = rankIndex c) as Hxr by (destruct Hx as [-> | [-> | [-> | []]]]; lia).
      rewrite Hxr in Hmin. destruct Hy as [-> | [-> | [-> | []]]]; lia.
    + intros Hmin.
      pose proof (Hmin a ltac:(in_list)). pose proof (Hmin b ltac:(in_list)).
      pose proof (Hmin c ltac:(in_list)).
      destruct Hx as [-> | [-> | [-> | []]]]; lia.
Qed.

(** *** The range of the comparison values *)

Lemma index_range (o : option ascii) :
  (-1 ≤ Js.indexOf RANKS (Js.toStr o) ≤ 12) ∧
  (-1 ≤ Js.indexOf SUITS (Js.toStr o) ≤ 3).
Proof.
  assert ((-1 <=? Js.indexOf RANKS (Js.toStr o)) &&
          (Js.indexOf RANKS (Js.toStr o) <=? 12) &&
          (-1 <=? Js.indexOf SUITS (Js.toStr o)) &&
          (Js.indexOf SUITS (Js.toStr o) <=? 3) = true) as H.
  { destruct o as [[[] [] [] [] [] [] [] []]|]; vm_compute; reflexivity. }
  rewrite !andb_true_iff in H. lia.
Qed.

Lemma rankIndex_range c : -1 ≤ rankIndex c ≤ 12.
Proof. apply index_range. Qed.

Lemma suitIndex_range c : -1 ≤ suitIndex c ≤ 3.
Proof. apply index_range. Qed.

Lemma Card_value_range c : -5 ≤ Card_value c ≤ 51.
Proof.
  unfold Card_value. pose proof (rankIndex_range c). pose proof (suitIndex_range c). lia.
Qed.

Lemma ifTruthy_Some o v : Js.ifTruthy o = Some v → o = Some v ∧ v ≠ 0.
Proof.
  destruct o as [w|]; simpl; [| done].
  destruct (w =? 0) eqn:Hw; [done |]. intros [= <-]. split; [done | lia].
Qed.

Lemma Play_straight_range p v : Play_straight p = Some v → -5 ≤ v ≤ 51.
Proof.
  unfold Play_straight. intros H.
  assert (∃ c, v = Card_value c) as [c ->]; [| apply Card_value_range].
  repeat match type of H with
         | (if ?b then _ else _) = _ => destruct b; [| try done]
         | _ <$> ?o = Some _ => destruct o as [c|]; [injection H as <-; by exists c | done]
         end.
Qed.

Lemma Play_flush_range p v : Play_flush p = Some v → -14 ≤ v ≤ 51.
Proof.
  unfold Play_flush.
  destruct (cards p !! 0%nat) as [c0|]; [| done].
  destruct (cards p !! 4%nat) as [c4|]; [| done].
  destruct (forallb _ _); [| done]. intros [= <-].
  pose proof (rankIndex_range c4). pose proof (suitIndex_range c4). lia.
Qed.

Lemma Play_quadro_range p v : Play_quadro p = Some v → -5 ≤ v ≤ 51.
Proof.
  unfold Play_quadro. destruct (withSameRank_has p 4); [| done].
  destruct (cards p !! 1%nat) as [c|]; [| done]. intros [= <-].
  apply Card_value_range.
Qed.

Lemma Play_fullHouse_range p v : Play_fullHouse p = Some v → -5 ≤ v ≤ 51.
Proof.
  unfold Play_fullHouse. destruct (_ && _); [| done].
  destruct (cards p !! 2%nat) as [c|]; [| done]. intros [= <-].
  apply Card_value_range.
Qed.

Lemma classify_range p : -14 ≤ (classify p).2 ≤ 51.
Proof.
  unfold classify.
  destruct (Js.ifTruthy (Play_straight p)) as [v|] eqn:Hs.
  { apply ifTruthy_Some in Hs as [Hs%Play_straight_range _].
    destruct (Js.truthy _); simpl; lia. }
  destruct (Js.ifTruthy (Play_quadro p)) as [v|] eqn:Hq.
  { apply ifTruthy_Some in Hq as [Hq%Play_quadro_range _]. simpl; lia. }
  destruct (Js.ifTruthy (Play_fullHouse p)) as [v|] eqn:Hf.
  { apply ifTruthy_Some in Hf as [Hf%Play_fullHouse_range _]. simpl; lia. }
  destruct (Js.ifTruthy (Play_flush p)) as [v|] eqn:Hl.
  { apply ifTruthy_Some in Hl as [Hl%Play_flush_range _]. simpl; lia. }
  simpl; lia.
Qed.

(** The value of five cards is [kind * 1000 + comparison value]. *)
Lemma five_cards_value p v :
  length (cards p) = 5%nat →
  Play_value p = Some v ↔
  (classify p).1 ≠ CNone ∧ v = Combi_num (classify p).1 * 1000 + (classify p).2.
Proof.
  intros Hlen. unfold Play_value. rewrite Hlen.
  destruct (classify p) as [k val]. simpl.
  case_bool_decide as Hk.
  - split; [done | by intros [? _]].
  - split; [intros [= <-]; done | intros [_ ->]; done].
Qed.

(** C6. The comparison value within a kind lies between -14 and 51 (so
    below 1000) for every five cards, and between two valid combinations of
    five cards of different kinds the one of the higher kind, in the order
    None < Straight < Flush < FullHouse < Quadro < StraightFlush, has the
    strictly greater value. *)
Theorem higher_kind_greater_value (p1 p2 : Play) (v1 v2 : Z) :
  length (cards p1) = 5%nat →
  length (cards p2) = 5%nat →
  Play_value p1 = Some v1 →
  Play_value p2 = Some v2 →
  (-14 ≤ (classify p1).2 ≤ 51 ∧ (classify p1).2 < 1000) ∧
  (-14 ≤ (classify p2).2 ≤ 51 ∧ (classify p2).2 < 1000) ∧
  v1 = Combi_num (classify p1).1 * 1000 + (classify p1).2 ∧
  v2 = Combi_num (classify p2).1 * 1000 + (classify p2).2 ∧
  (Combi_num (classify p1).1 < Combi_num (classify p2).1 → v1 < v2).
Proof.
  intros Hl1 Hl2 Hv1 Hv2.
  apply five_cards_value in Hv1 as [_ ->]; [| done].
  apply five_cards_value in Hv2 as [_ ->]; [| done].
  pose proof (classify_range p1). pose proof (classify_range p2).
  repeat split; lia.
Qed.

Lemma higher_kind_greater_value_witness :
  let flush := Play_fromString ["3D"; "5D"; "7D"; "9D"; "2D"] None in
  let quadro := Play_fromString ["3C"; "3S"; "3H"; "3D"; "4C"] None in
  (classify flush = (Flush, 51) ∧ classify quadro = (Quadro, 1)) ∧
  Play_value flush = Some 2051 ∧ Play_value quadro = Some 4001 ∧ 2051 < 4001.
Proof.
  intros flush quadro.
  assert (classify flush = (Flush, 51)) as Hf by (vm_compute; reflexivity).
  assert (classify quadro = (Quadro, 1)) as Hq by (vm_compute; reflexivity).
  assert (Play_value flush = Some 2051) as Hvf by (vm_compute; reflexivity).
  assert (Play_value quadro = Some 4001) as Hvq by (vm_compute; reflexivity).
  split; [done |]. split; [done |]. split; [done |].
  destruct (higher_kind_greater_value flush quadro 2051 4001
              eq_refl eq_refl Hvf Hvq) as (_ & _ & _ & _ & Hlt).
  apply Hlt. rewrite Hf, Hq. simpl. lia.
Defined.

(** ** Rounds *)

(** *** Taking cards out of a hand *)

Lemma splice_Permutation {A} (l : list A) start count :
  l ≡ₚ (Js.splice l start count).1 ++ (Js.splice l start count).2.
Proof.
  unfold Js.splice. cbn [fst snd].
  set (len := Z.of_nat (length l)).
  set (from := if start <? 0 then Z.max (len + start) 0 else Z.min start len).
  set (cnt := Z.min (Z.max count 0) (len - from)).
  assert (0 ≤ from ≤ len) as Hfrom.
  { unfold from. destruct (start <? 0) eqn:Hs; lia. }
  assert (0 ≤ cnt) as Hcnt by (unfold cnt; lia).
  replace (Z.to_nat (from + cnt)) with (Z.to_nat from + Z.to_nat cnt)%nat by lia.
  rewrite <- drop_drop.
  rewrite (Permutation_app_comm (take (Z.to_nat cnt) _)), <- app_assoc.
  rewrite (Permutation_app_comm (drop _ _)), take_drop.
  by rewrite take_drop.
Qed.

Lemma splice_one_removed {A} (l : list A) start :
  option_list (Js.pop (Js.splice l start 1).1) = (Js.splice l start 1).1.
Proof.
  unfold Js.splice, Js.pop. cbn [fst].
  set (len := Z.of_nat (length l)).
  set (from := if start <? 0 then Z.max (len + start) 0 else Z.min start len).
  set (cnt := Z.min (Z.max 1 0) (len - from)).
  assert (Z.to_nat cnt ≤ 1)%nat as Hcnt by (unfold cnt; lia).
  pose proof (length_take (drop (Z.to_nat from) l) (Z.to_nat cnt)) as Hlen.
  destruct (take _ _) as [|x [|y r]]; simpl in *; [done | done | lia].
Qed.

Lemma takeFromHand_Permutation hand ps :
  hand ≡ₚ groupCards (takeFromHand hand ps).1 ++ (takeFromHand hand ps).2.
Proof.
  unfold groupCards.
  revert hand. induction ps as [|card ps IH]; intros hand; [done |].
  cbn [takeFromHand].
  pose proof (splice_Permutation hand (Js.arrayIndexOf hand card) 1) as Hs.
  pose proof (splice_one_removed hand (Js.arrayIndexOf hand card)) as Hr.
  destruct (Js.splice hand _ 1) as [removed hand1]. cbn [fst snd] in Hs, Hr.
  specialize (IH hand1). destruct (takeFromHand hand1 ps) as [discard hand2].
  cbn [fst snd] in *. etrans; [exact Hs |]. rewrite <- Hr.
  destruct (Js.pop removed); simpl; by rewrite <- IH.
Qed.

(** *** The hands as one collection *)

Lemma hands_lookup (m : gmap nat (list CardStr)) seat hand :
  m !! seat = Some hand → hands m ≡ₚ hand ++ hands (delete seat m).
Proof.
  intros Hm. unfold hands.
  by rewrite <- (map_to_list_delete m seat hand Hm).
Qed.

Lemma hands_insert (m : gmap nat (list CardStr)) seat hand :
  hands (<[seat := hand]> m) ≡ₚ hand ++ hands (delete seat m).
Proof.
  rewrite <- insert_delete_eq. unfold hands.
  rewrite map_to_list_insert by apply lookup_delete_eq.
  done.
Qed.

Lemma discards_app d1 d2 : discards (d1 ++ d2) = discards d1 ++ discards d2.
Proof. unfold discards. by rewrite fmap_app, concat_app. Qed.

(** *** [setup] deals every card of the deck *)

Lemma dense_empty : dense ∅.
Proof.
  intros k. rewrite lookup_empty, map_size_empty. split; [by intros [? ?] | lia].
Qed.

Lemma dense_fresh m : dense m → m !! size m = None.
Proof.
  intros Hd. apply eq_None_not_Some. rewrite (Hd (size m)). lia.
Qed.

Lemma dense_insert m hand : dense m → dense (<[size m := hand]> m).
Proof.
  intros Hd k. rewrite map_size_insert_None by by apply dense_fresh.
  rewrite lookup_insert_is_Some, (Hd k). destruct (decide (size m = k)); lia.
Qed.

Lemma deal_hands deck m r f :
  dense m → hands (deal deck m r f).1.1 ≡ₚ hands m ++ (Card_toString <$> deck).
Proof.
  funelim (deal deck m r f); intros Hd.
  - simpl. by rewrite app_nil_r.
  - rewrite H by by apply dense_insert.
    rewrite hands_insert, delete_id by by apply dense_fresh.
    rewrite (splice_Permutation (c :: deck') 0 13) at 3.
    rewrite fmap_app, !app_assoc.
    by rewrite (Permutation_app_comm (hands players0)).
Qed.

Lemma setup_fields deck :
  players (setup deck) = (deal deck ∅ ∅ 0%nat).1.1 ∧
  hasStarted (setup deck) = false ∧ discarded (setup deck) = [] ∧
  lastPlay (setup deck) = None ∧ winners (setup deck) = [].
Proof. unfold setup. by destruct (deal deck ∅ ∅ 0%nat) as [[? ?] ?]. Qed.

Lemma setup_allCards deck : allCards (setup deck) ≡ₚ Card_toString <$> deck.
Proof.
  unfold allCards. destruct (setup_fields deck) as (-> & _ & -> & _).
  rewrite deal_hands by apply dense_empty.
  unfold hands, discards. rewrite map_to_list_empty. simpl. by rewrite app_nil_r.
Qed.

(** *** What an accepted move changes *)

Lemma play_accepted_state ctx cs G G' :
  play ctx cs G = (inr (), G') →
  let seat := currentPlayer ctx in
  let pl := Play_fromString cs (Some seat) in
  ∃ hand c,
    players G !! seat = Some hand ∧ c ∈ hand ∧
    let discard := (takeFromHand hand (Play_toStrings pl)).1 in
    let hand' := (takeFromHand hand (Play_toStrings pl)).2 in
    players G' = <[seat := hand']> (players G) ∧
    discarded G' = discarded G ++ [discard] ∧
    lastPlay G' = (if (length hand' =? 0)%nat then None else Some pl) ∧
    winners G' = (if (length hand' =? 0)%nat then winners G ++ [seat] else winners G).
Proof.
  intros Hplay. cbn zeta.
  apply play_accepted_inv in Hplay as (v & hand & G1 & Hv & Hhand & Hin & Hc & Hd).
  set (pl := Play_fromString cs (Some (currentPlayer ctx))) in *.
  assert (∃ c, c ∈ Play_toStrings pl) as [c Hc'].
  { unfold Play_toStrings. destruct (cards pl) as [|c0 ?] eqn:Hcards.
    - unfold Play_value in Hv. by rewrite Hcards in Hv.
    - exists (Card_toString c0). simpl. in_list. }
  exists hand, c. split; [done |]. split; [by apply Hin |].
  assert (players G1 = players G ∧ discarded G1 = discarded G ∧
          winners G1 = winners G) as (Hp & Hdi & Hw).
  { apply checkTable_inv in Hc as [(? & _) | (_ & Hc)]; [done |].
    destruct (lastPlay G).
    - by destruct Hc as (-> & _).
    - destruct (hasStarted G); [by subst | by destruct Hc as (_ & ->)]. }
  rewrite discardPlay_eq in Hd. injection Hd as <-. simpl.
  by rewrite Hp, Hdi, Hw.
Qed.

Lemma pass_accepted_state ctx G G' :
  pass ctx G = (inr (), G') →
  players G' = players G ∧ discarded G' = discarded G ∧ winners G' = winners G.
Proof.
  unfold pass, mbind, Move_bind, get, exit, modify, mret, Move_ret.
  destruct (lastPlay G) as [last|]; [| by intros [=]].
  destruct (getNext G ctx) as [next|]; [| by intros [=]].
  by destruct (bool_decide _); intros [= <-].
Qed.

Lemma step_allCards G G' : step G G' → allCards G' ≡ₚ allCards G.
Proof.
  intros [ctx [[cs Hplay] | Hpass]].
  - apply play_accepted_state in Hplay as (hand & c & Hhand & _ & Hp & Hd & _).
    pose proof (takeFromHand_Permutation hand
      (Play_toStrings (Play_fromString cs (Some (currentPlayer ctx))))) as Ht.
    set (t := takeFromHand hand _) in *.
    unfold allCards. rewrite Hp, Hd, discards_app, hands_insert.
    rewrite (hands_lookup _ _ _ Hhand), Ht.
    unfold discards at 2. simpl. rewrite app_nil_r.
    rewrite <- !app_assoc. rewrite (Permutation_app_comm (groupCards t.1)).
    rewrite <- !app_assoc. do 2 f_equiv.
  - apply pass_accepted_state in Hpass as (Hp & Hd & _).
    unfold allCards. by rewrite Hp, Hd.
Qed.

Lemma deck_texts_NoDup : NoDup (Card_toString <$> Card_newDeck).
Proof. apply (bool_decide_unpack _). vm_compute. exact I. Qed.

(** C4. In every state of a round the card texts in the hands together with
    those in the discarded groups are the 52 texts of the deck, each of them
    once: every card is in one hand or in one discarded group and nowhere
    else. *)
Theorem cards_conserved (G : State) :
  reachable G →
  allCards G ≡ₚ Card_toString <$> Card_newDeck ∧
  NoDup (allCards G) ∧ length (allCards G) = 52%nat.
Proof.
  intros HG.
  assert (allCards G ≡ₚ Card_toString <$> Card_newDeck) as Hperm.
  { induction HG as [deck Hdeck | G G' _ IH Hstep].
    - by rewrite setup_allCards, Hdeck.
    - by rewrite (step_allCards _ _ Hstep). }
  split; [done |]. rewrite Hperm. split; [apply deck_texts_NoDup | done].
Qed.

Lemma first_play_accepted : (play seat0 ["3C"] dealtInOrder).1 = inr ().
Proof. vm_compute. reflexivity. Qed.

Lemma first_play_reachable : reachable (play seat0 ["3C"] dealtInOrder).2.
Proof.
  apply (reachable_step dealtInOrder); [by apply reachable_setup |].
  exists seat0. left. exists ["3C"].
  rewrite (surjective_pairing (play seat0 ["3C"] dealtInOrder)) at 1.
  by rewrite first_play_accepted.
Qed.

Lemma cards_conserved_witness :
  let G := (play seat0 ["3C"] dealtInOrder).2 in
  reachable G ∧
  allCards G ≡ₚ Card_toString <$> Card_newDeck ∧
  NoDup (allCards G) ∧ length (allCards G) = 52%nat.
Proof.
  intros G. split; [apply first_play_reachable |].
  apply (cards_conserved G first_play_reachable).
Defined.

(** *** Winners *)

Lemma winners_ok_setup deck : winners_ok (setup deck).
Proof.
  destruct (setup_fields deck) as (_ & _ & _ & _ & Hw). unfold winners_ok.
  rewrite Hw. split; [constructor | by intros s ?%elem_of_nil].
Qed.

Lemma winners_ok_step G G' : winners_ok G → step G G' → winners_ok G'.
Proof.
  intros [Hnd Hempty] [ctx [[cs Hplay] | Hpass]].
  - apply play_accepted_state in Hplay
      as (hand & c & Hhand & Hc & Hp & _ & _ & Hw).
    set (hand' := (takeFromHand hand _).2) in *.
    assert (currentPlayer ctx ∉ winners G) as Hnot.
    { intros Hin. apply Hempty in Hin. rewrite Hhand in Hin.
      injection Hin as ->. by apply elem_of_nil in Hc. }
    unfold winners_ok. rewrite Hw, Hp.
    destruct (length hand' =? 0)%nat eqn:Hlen.
    + apply Nat.eqb_eq, nil_length_inv in Hlen. split.
      * apply NoDup_app. split; [done |]. split; [| apply NoDup_singleton].
        by intros s Hs ->%list_elem_of_singleton.
      * intros s [Hs | ->%list_elem_of_singleton]%elem_of_app.
        -- rewrite lookup_insert_ne by (by intros <-). by apply Hempty.
        -- by rewrite lookup_insert_eq, Hlen.
    + split; [done |]. intros s Hs.
      rewrite lookup_insert_ne by (by intros <-). by apply Hempty.
  - apply pass_accepted_state in Hpass as (Hp & _ & Hw).
    unfold winners_ok. by rewrite Hw, Hp.
Qed.

Lemma reachable_winners_ok G : reachable G → winners_ok G.
Proof.
  induction 1 as [deck _ | G G' _ IH Hstep];
    [apply winners_ok_setup | by eapply winners_ok_step].
Qed.







(** *** A round played out *)

Lemma runMove_step G m G' : runMove G m = Some G' → step G G'.
Proof.
  unfold runMove. destruct m as [ctx [cs|]]; simpl.
  - destruct (play ctx cs G) as [[e|[]] G1] eqn:H; intros [= <-].
    exists ctx. left. by exists cs.
  - destruct (pass ctx G) as [[e|[]] G1] eqn:H; intros [= <-].
    exists ctx. by right.
Qed.

Lemma run_rtc G ms G' : run G ms = Some G' → rtc step G G'.
Proof.
  revert G. induction ms as [|m ms IH]; intros G; simpl.
  - intros [= <-]. constructor.
  - destruct (runMove G m) as [G1|] eqn:Hm; [| done].
    intros Hrun. eapply rtc_l; [by apply runMove_step in Hm | by apply IH].
Qed.



(** ** Straights *)

(** *** The test of [straight] on the numbers of the cards *)

Lemma elem_of_setAdd {A} `{EqDecision A} (seen l : list A) x :
  x ∈ Js.setAdd seen l ↔ x ∈ seen ∨ x ∈ l.
Proof.
  revert seen. induction l as [|y l IH]; intros seen; simpl.
  - rewrite elem_of_nil. tauto.
  - case_bool_decide as Hy; rewrite IH, ?elem_of_app, !elem_of_cons, ?elem_of_nil.
    + split; [tauto |]. intros [? | [-> | ?]]; tauto.
    + tauto.
Qed.

Lemma elem_of_setOf {A} `{EqDecision A} (l : list A) x : x ∈ Js.setOf l ↔ x ∈ l.
Proof. unfold Js.setOf. rewrite elem_of_setAdd, elem_of_nil. tauto. Qed.

Lemma at_elem_of l i : (i < length l)%nat → at_ l i ∈ l.
Proof.
  intros Hi. unfold at_. destruct (lookup_lt_is_Some_2 l i Hi) as [x Hx].
  rewrite Hx. simpl. by eapply list_elem_of_lookup_2.
Qed.

(** An element of the sorted set of numbers is the number of a card. *)
Lemma sorted_num_card p i :
  let nums := Js.sort Js.ascending (Js.setOf (num <$> cards p)) in
  (i < length nums)%nat → ∃ c, c ∈ cards p ∧ num c = at_ nums i.
Proof.
  intros nums Hi. pose proof (at_elem_of nums i Hi) as Hin.
  unfold nums in Hin at 2. rewrite sort_Permutation, elem_of_setOf in Hin.
  apply list_elem_of_fmap in Hin as (c & Hc & Hin). by exists c.
Qed.

Lemma find_num_is_Some p n :
  (∃ c, c ∈ cards p ∧ num c = n) →
  ∃ c, List.find (λ c, num c =? n) (cards p) = Some c ∧ num c = n.
Proof.
  intros (c & Hc & Hn). destruct (List.find _ _) as [c'|] eqn:Hfind.
  - exists c'. split; [done |]. apply find_some in Hfind as [_ ?]. lia.
  - eapply find_none in Hfind; [| by apply list_elem_of_In]. simpl in Hfind. lia.
Qed.

Lemma Play_straight_is_Some p :
  is_Some (Play_straight p) ↔ straightNums (num <$> cards p) = true.
Proof.
  unfold Play_straight, straightNums, straightShape. cbn zeta.
  pose proof (sorted_num_card p) as Hcard. cbn zeta in Hcard.
  rewrite sort_length in Hcard.
  set (numSet := Js.setOf (num <$> cards p)) in *.
  set (nums := Js.sort Js.ascending numSet) in *.
  case_bool_decide as Hlen; simpl; [| split; [by intros [? ?] | done]].
  destruct (at_ nums 0 + 4 =? at_ nums 4) eqn:H1; simpl.
  { destruct (find_num_is_Some p (at_ nums 4)) as (c & -> & _);
      [apply Hcard; lia | by split; [| intros _; eexists]]. }
  destruct (at_ nums 0 =? 0) eqn:H2; simpl; [| split; [by intros [? ?] | done]].
  set (nums' := Js.sort Js.ascending (<[0%nat := 13]> nums)).
  destruct (at_ nums' 0 + 4 =? at_ nums' 4) eqn:H3; simpl; [| split; [by intros [? ?] | done]].
  destruct (find_num_is_Some p 0) as (c & -> & _); [| by split; [| intros _; eexists]].
  destruct (Hcard 0%nat ltac:(lia)) as (c & Hc & Hn). exists c. split; [done | lia].
Qed.

Lemma num_range c : 0 ≤ num c ≤ 12.
Proof.
  unfold num. pose proof (rankIndex_range c).
  pose proof (Z.rem_bound_pos (rankIndex c + 2) 13). lia.
Qed.

Lemma value_zero_num c : Card_value c = 0 → num c = 2.
Proof.
  unfold Card_value, num. pose proof (rankIndex_range c).
  pose proof (suitIndex_range c). intros Hv.
  assert (rankIndex c = 0) as -> by lia. reflexivity.
Qed.

(** The value [straight] returns is never 0, so [if (val)] reads it as
    present. *)
Lemma Play_straight_nonzero p v : Play_straight p = Some v → v ≠ 0.
Proof.
  unfold Play_straight. cbn zeta.
  pose proof (sorted_num_card p) as Hcard. cbn zeta in Hcard.
  rewrite sort_length in Hcard.
  set (numSet := Js.setOf (num <$> cards p)) in *.
  set (nums := Js.sort Js.ascending numSet) in *.
  case_bool_decide as Hlen; [| done].
  destruct (Hcard 0%nat ltac:(lia)) as (c0 & _ & Hc0).
  pose proof (num_range c0).
  destruct (at_ nums 0 + 4 =? at_ nums 4) eqn:H1.
  { destruct (List.find _ _) as [c|] eqn:Hfind; [| done].
    apply find_some in Hfind as [_ Hn]. intros [= <-] Hz%value_zero_num. lia. }
  destruct (at_ nums 0 =? 0); [| done].
  set (nums' := Js.sort Js.ascending (<[0%nat := 13]> nums)).
  destruct (at_ nums' 0 + 4 =? at_ nums' 4); [| done].
  destruct (List.find _ _) as [c|] eqn:Hfind; [| done].
  apply find_some in Hfind as [_ Hn]. intros [= <-] Hz%value_zero_num. lia.
Qed.

(** Five cards are classified [Straight] or [StraightFlush] exactly when
    [straight] returns a value. *)
Lemma classify_straight p :
  (classify p).1 = Straight ∨ (classify p).1 = StraightFlush ↔
  is_Some (Play_straight p).
Proof.
  unfold classify. destruct (Play_straight p) as [v|] eqn:Hs.
  - pose proof (Play_straight_nonzero p v Hs) as Hv. simpl.
    destruct (v =? 0) eqn:Hz; [lia |].
    destruct (Js.truthy _); simpl; split; eauto.
  - simpl.
    assert (∀ k : Combi, (k = Straight ∨ k = StraightFlush ↔ is_Some (@None Z)) ↔
              k ≠ Straight ∧ k ≠ StraightFlush) as Hk.
    { intros k. split.
      - intros [H _]. split; intros ->; by destruct H as [? ?]; [auto |].
      - intros [? ?]. split; [by intros [? | ?] | by intros [? ?]]. }
    apply Hk.
    destruct (Js.ifTruthy (Play_quadro p)); [done |].
    destruct (Js.ifTruthy (Play_fullHouse p)); [done |].
    by destruct (Js.ifTruthy (Play_flush p)).
Qed.

(** *** Runs of ranks *)

Lemma elem_of_choose n dom l :
  l `sublist_of` dom → length l = n → l ∈ choose n dom.
Proof.
  intros Hsub. revert n. induction Hsub as [|x l1 l2 _ IH|x l1 l2 _ IH]; intros n Hn.
  - subst n. simpl. in_list.
  - subst n. simpl. apply elem_of_app. left.
    apply list_elem_of_fmap. exists l1. split; [done | by apply IH].
  - destruct n as [|n].
    + apply nil_length_inv in Hn as ->. simpl. in_list.
    + simpl. apply elem_of_app. right. by apply IH.
Qed.

Lemma increasing_sublist l lo k :
  StronglySorted Z.lt l → Forall (λ x, lo ≤ x < lo + Z.of_nat k) l →
  l `sublist_of` upFrom lo k.
Proof.
  revert lo l. induction k as [|k IH]; intros lo l Hs Hall.
  - destruct l as [|x l]; [constructor |].
    apply Forall_cons in Hall as [? _]. lia.
  - simpl. destruct l as [|x l]; [apply sublist_nil_l |].
    pose proof Hs as Hs'. apply StronglySorted_inv in Hs' as [Hl Hx].
    pose proof Hall as Hall'. apply Forall_cons in Hall' as [Hx0 Hrest].
    rewrite Forall_forall in Hx, Hrest.
    destruct (decide (x = lo)) as [-> | Hne].
    + apply sublist_skip, IH; [done |]. apply Forall_forall. intros y Hy.
      specialize (Hx y Hy). specialize (Hrest y Hy). simpl in *. lia.
    + apply sublist_cons, IH; [done |]. apply Forall_forall.
      intros y [-> | Hy]%elem_of_cons; [lia |].
      specialize (Hx y Hy). specialize (Hrest y Hy). simpl in *. lia.
Qed.

Lemma sorted_strict l : StronglySorted Z.le l → NoDup l → StronglySorted Z.lt l.
Proof.
  induction 1 as [|x l Hl IH Hx]; intros Hnd; constructor.
  - apply IH. by apply NoDup_cons in Hnd as [_ ?].
  - apply NoDup_cons in Hnd as [Hnot _]. rewrite Forall_forall in Hx.
    apply Forall_forall. intros y Hy. specialize (Hx y Hy).
    assert (x ≠ y) by (by intros ->). lia.
Qed.

Lemma setAdd_NoDup {A} `{EqDecision A} (seen l : list A) :
  NoDup seen → NoDup (Js.setAdd seen l).
Proof.
  revert seen. induction l as [|x l IH]; intros seen Hnd; simpl; [done |].
  case_bool_decide as Hx; apply IH; [done |].
  apply NoDup_app. split; [done |]. split; [| apply NoDup_singleton].
  by intros y Hy ->%list_elem_of_singleton.
Qed.

Lemma setOf_NoDup {A} `{EqDecision A} (l : list A) : NoDup (Js.setOf l).
Proof. apply setAdd_NoDup. constructor. Qed.

Lemma ascending_sorted l : StronglySorted Z.le (Js.sort Js.ascending l).
Proof. exact (sort_sorted Js.ascending (λ x, x) ascending_key l). Qed.

Lemma ascending_unique l1 l2 :
  l1 ≡ₚ l2 → Js.sort Js.ascending l1 = Js.sort Js.ascending l2.
Proof.
  intros Hp. apply (StronglySorted_unique_strong Z.le); try apply ascending_sorted.
  - intros; lia.
  - by rewrite !sort_Permutation.
Qed.

(** The sorted set of five distinct numbers from 0 to 12 is one of the
    1287 increasing lists. *)
Lemma sorted_set_choose t :
  Forall (λ x, 0 ≤ x ≤ 12) t → length (Js.setOf t) = 5%nat →
  Js.sort Js.ascending (Js.setOf t) ∈ choose 5 (upFrom 0 13).
Proof.
  intros Hall Hlen. apply elem_of_choose; [| by rewrite sort_length].
  apply increasing_sublist.
  - apply sorted_strict; [apply ascending_sorted |].
    rewrite sort_Permutation. apply setOf_NoDup.
  - apply Forall_forall. intros x Hx.
    rewrite sort_Permutation, elem_of_setOf in Hx.
    rewrite Forall_forall in Hall. specialize (Hall x Hx). simpl. lia.
Qed.

(** On each of them the two tests of the code say whether the numbers are
    those of a window: checked one by one. *)
Lemma straightShape_isWindow_all :
  forallb (λ nums, bool_decide (straightShape nums = isWindow nums))
          (choose 5 (upFrom 0 13)) = true.
Proof. vm_compute. reflexivity. Qed.

Lemma isWindow_true nums :
  isWindow nums = true ↔
  ∃ i, (i < 10)%nat ∧ nums = Js.sort Js.ascending (numWindow i).
Proof.
  unfold isWindow. rewrite existsb_exists. split.
  - intros (i & Hi%in_seq & Hp%bool_decide_eq_true). exists i. split; [lia | done].
  - intros (i & Hi & Hp). exists i. split; [apply in_seq; lia |].
    by apply bool_decide_eq_true.
Qed.

Lemma numWindow_NoDup i : (i < 10)%nat → NoDup (numWindow i).
Proof.
  intros Hi.
  do 10 (destruct i as [|i]; [apply (bool_decide_unpack _); by vm_compute |]). lia.
Qed.

(** The test of [straight] holds of five numbers from 0 to 12 exactly when
    they are the numbers of a window of [aceLowOrHigh]. *)
Lemma straightNums_true t :
  length t = 5%nat → Forall (λ x, 0 ≤ x ≤ 12) t →
  straightNums t = true ↔ ∃ i, (i < 10)%nat ∧ t ≡ₚ numWindow i.
Proof.
  intros Hlen Hall. unfold straightNums. cbn zeta.
  rewrite andb_true_iff, bool_decide_eq_true.
  pose proof straightShape_isWindow_all as Hcheck.
  rewrite forallb_forall in Hcheck. split.
  - intros [Hset Hshape].
    specialize (Hcheck _ (proj1 (list_elem_of_In _ _) (sorted_set_choose t Hall Hset))).
    apply bool_decide_eq_true in Hcheck. rewrite Hcheck in Hshape.
    apply isWindow_true in Hshape as (i & Hi & Hw). exists i. split; [done |].
    rewrite <- (sort_Permutation Js.ascending (numWindow i)), <- Hw, sort_Permutation.
    symmetry. apply NoDup_Permutation_bis;
      [apply NoDup_ListNoDup, setOf_NoDup | lia |].
    intros x Hx%list_elem_of_In. by apply list_elem_of_In, elem_of_setOf.
  - intros (i & Hi & Hp).
    assert (Js.setOf t ≡ₚ t) as Hset.
    { apply NoDup_Permutation; [apply setOf_NoDup | |].
      - rewrite Hp. by apply numWindow_NoDup.
      - intros x. apply elem_of_setOf. }
    assert (length (Js.setOf t) = 5%nat) as Hlen' by by rewrite Hset.
    split; [done |].
    specialize (Hcheck _ (proj1 (list_elem_of_In _ _) (sorted_set_choose t Hall Hlen'))).
    apply bool_decide_eq_true in Hcheck. rewrite Hcheck.
    apply isWindow_true. exists i. split; [done |].
    apply ascending_unique. by rewrite Hset.
Qed.

Lemma numWindow_ranks i :
  (i < 10)%nat →
  rankOfNum <$> numWindow i = window aceLowOrHigh i ∧
  numOfRank <$> window aceLowOrHigh i = numWindow i.
Proof.
  intros Hi. do 10 (destruct i as [|i]; [by vm_compute |]). lia.
Qed.

Lemma deck_rankOfNum c : c ∈ Card_newDeck → rankOfNum (num c) = rank c.
Proof.
  assert (Forall (λ c, rankOfNum (num c) = rank c) Card_newDeck) as H.
  { apply (bool_decide_unpack _). vm_compute. exact I. }
  rewrite Forall_forall in H. apply H.
Qed.

Lemma codeStraight_nums cs :
  Forall (λ c, c ∈ Card_newDeck) cs →
  codeStraight (rank <$> cs) ↔ ∃ i, (i < 10)%nat ∧ num <$> cs ≡ₚ numWindow i.
Proof.
  intros Hdeck. unfold codeStraight. split; intros (i & Hi & Hp); exists i;
    (split; [done |]); destruct (numWindow_ranks i Hi) as [Hr Hn].
  - rewrite <- Hn, <- Hp, <- list_fmap_compose. done.
  - rewrite <- Hr, <- Hp, <- list_fmap_compose.
    apply eq_subrelation; [apply _ |]. apply Forall_fmap_ext.
    eapply Forall_impl; [exact Hdeck |]. simpl. intros c Hc.
    by rewrite deck_rankOfNum.
Qed.

Lemma wraparound_no_run i :
  (i < 10)%nat → ¬ window "JQKA2" 0 ≡ₚ window aceLowOrHigh i.
Proof.
  intros Hi.
  do 10 (destruct i as [|i];
         [intros H; apply (bool_decide_pack _) in H; vm_compute in H; exact H |]).
  lia.
Qed.

(** C1, as the code has it. Five cards of the deck are classified as a
    straight ([Straight], or [StraightFlush] when [flush] holds as well)
    exactly when [straight] returns a value, and that is exactly when their
    ranks are five consecutive ranks of A 2 3 4 5 6 7 8 9 T J Q K A: the ace
    is the lowest rank or follows the king, and 2 is low.  The run J, Q, K,
    A, 2 is no straight. *)
Theorem straight_iff_ace_run (cs : list Card) (p : option nat) :
  length cs = 5%nat →
  Forall (λ c, c ∈ Card_newDeck) cs →
  (is_Some (Play_straight (newPlay cs p)) ↔ codeStraight (rank <$> cs)) ∧
  ((classify (newPlay cs p)).1 = Straight ∨
   (classify (newPlay cs p)).1 = StraightFlush ↔ codeStraight (rank <$> cs)) ∧
  (rank <$> cs ≡ₚ window "JQKA2" 0 →
     Play_straight (newPlay cs p) = None ∧
     (classify (newPlay cs p)).1 ≠ Straight ∧
     (classify (newPlay cs p)).1 ≠ StraightFlush).
Proof.
  intros Hlen Hdeck.
  assert (is_Some (Play_straight (newPlay cs p)) ↔ codeStraight (rank <$> cs)) as Hiff.
  { rewrite Play_straight_is_Some, straightNums_true.
    - rewrite codeStraight_nums by done. unfold newPlay. cbn [cards].
      by setoid_rewrite (sort_Permutation byValue cs).
    - rewrite length_fmap. unfold newPlay. cbn [cards]. by rewrite sort_length.
    - apply Forall_fmap, Forall_forall. intros c _. apply num_range. }
  split; [done |]. split; [by rewrite classify_straight |].
  intros Hwrap.
  assert (¬ codeStraight (rank <$> cs)) as Hno.
  { intros (i & Hi & Hp). rewrite Hwrap in Hp. by apply wraparound_no_run in Hp. }
  rewrite <- Hiff in Hno. split; [by apply eq_None_not_Some |].
  rewrite <- classify_straight in Hno. tauto.
Qed.

Lemma straight_iff_ace_run_witness :
  (length wheel = 5%nat ∧ Forall (λ c, c ∈ Card_newDeck) wheel) ∧
  codeStraight (rank <$> wheel) ∧
  is_Some (Play_straight (newPlay wheel None)) ∧
  ((classify (newPlay wheel None)).1 = Straight ∨
   (classify (newPlay wheel None)).1 = StraightFlush).
Proof.
  assert (length wheel = 5%nat) as Hlen by reflexivity.
  assert (Forall (λ c, c ∈ Card_newDeck) wheel) as Hdeck.
  { apply (bool_decide_unpack _). vm_compute. exact I. }
  assert (codeStraight (rank <$> wheel)) as Hrun.
  { exists 0%nat. split; [lia |]. apply (bool_decide_unpack _). vm_compute. exact I. }
  destruct (straight_iff_ace_run wheel None Hlen Hdeck) as (Hs & Hk & _).
  split; [done |]. split; [done |]. split; [by apply Hs | by apply Hk].
Defined.

(** C1 as stated fails, in both directions.  J, Q, K, A, 2 is a straight
    in the words of the specification, yet [straight] returns nothing for
    it and the five cards are an invalid combination.  A, 2, 3, 4, 5 is no
    straight in those words, where 3 is the lowest rank, yet it is
    classified [Straight]. *)
Lemma wraparound_is_invalid :
  (specStraight (rank <$> wraparound) ∧
   Play_straight (newPlay wraparound None) = None ∧
   classify (newPlay wraparound None) = (CNone, 0) ∧
   Play_value (newPlay wraparound None) = None) ∧
  (¬ specStraight (rank <$> wheel) ∧
   classify (newPlay wheel None) = (Straight, 11) ∧
   Play_value (newPlay wheel None) = Some 1011).
Proof.
  split; [split; [| by vm_compute] | split; [| by vm_compute]].
  - right. reflexivity.
  - intros [(i & Hi & Hp) | Hp].
    + do 7 (destruct i as [|i];
            [apply (bool_decide_pack _) in Hp; vm_compute in Hp; exact Hp |]).
      lia.
    + apply (bool_decide_pack _) in Hp. vm_compute in Hp. exact Hp.
Qed.


(** * Further properties of the code *)

(** ** Card texts and card values *)

Lemma index_zero (o : option ascii) :
  (Js.indexOf RANKS (Js.toStr o) = 0 → o = Some "3"%char) ∧
  (Js.indexOf SUITS (Js.toStr o) = 0 → o = Some "C"%char).
Proof.
  destruct o as [[[] [] [] [] [] [] [] []]|];
    split; intros H; vm_compute in H; first [discriminate H | reflexivity].
Qed.

(** X1. A card written out and read back is the same card, when its rank
    and suit are there; a text read and written out again is its first two
    characters, so a text of two characters comes back as it was. *)
Theorem card_text_round_trip :
  (∀ r u, Card_fromString (Card_toString (mkCard (Some r) (Some u))) =
          mkCard (Some r) (Some u)) ∧
  (∀ r u rest, Card_toString (Card_fromString (String r (String u rest))) =
               String r (String u EmptyString)) ∧
  (∀ c, c ∈ Card_newDeck → Card_fromString (Card_toString c) = c).
Proof.
  split; [done |]. split; [done |].
  intros c Hc.
  assert (Forall (λ c, Card_fromString (Card_toString c) = c) Card_newDeck) as H.
  { apply (bool_decide_unpack _). vm_compute. exact I. }
  rewrite Forall_forall in H. by apply H.
Qed.

Lemma deck_facts :
  Forall (λ c, 0 ≤ rankIndex c ≤ 12 ∧ 0 ≤ suitIndex c ≤ 3 ∧
               Forall (λ c', Card_value c = Card_value c' → c = c') Card_newDeck)
         Card_newDeck.
Proof. apply (bool_decide_unpack _). vm_compute. exact I. Qed.

Lemma deck_card_range c :
  c ∈ Card_newDeck → 0 ≤ rankIndex c ≤ 12 ∧ 0 ≤ suitIndex c ≤ 3.
Proof.
  intros Hc. pose proof deck_facts as H. rewrite Forall_forall in H.
  destruct (H c Hc) as (? & ? & _). done.
Qed.

Lemma deck_value_inj c1 c2 :
  c1 ∈ Card_newDeck → c2 ∈ Card_newDeck →
  Card_value c1 = Card_value c2 → c1 = c2.
Proof.
  intros H1 H2. pose proof deck_facts as H. rewrite Forall_forall in H.
  destruct (H c1 H1) as (_ & _ & Hinj). rewrite Forall_forall in Hinj.
  by apply Hinj.
Qed.

(** X2. The deck has 52 different cards.  On them [value] is between 0 and
    51, tells any two cards apart, and orders them by rank first and by suit
    within a rank. *)
Theorem deck_value_order (c1 c2 : Card) :
  c1 ∈ Card_newDeck → c2 ∈ Card_newDeck →
  length Card_newDeck = 52%nat ∧ NoDup Card_newDeck ∧
  0 ≤ Card_value c1 ≤ 51 ∧
  (Card_value c1 = Card_value c2 → c1 = c2) ∧
  (Card_value c1 < Card_value c2 ↔
     rankIndex c1 < rankIndex c2 ∨
     (rankIndex c1 = rankIndex c2 ∧ suitIndex c1 < suitIndex c2)).
Proof.
  intros H1 H2. split; [done |]. split.
  { apply (bool_decide_unpack _). vm_compute. exact I. }
  pose proof (deck_card_range c1 H1). pose proof (deck_card_range c2 H2).
  split; [unfold Card_value; lia |]. split; [by apply deck_value_inj |].
  unfold Card_value. lia.
Qed.

Lemma deck_value_order_witness :
  (mkCard (Some "3"%char) (Some "D"%char) ∈ Card_newDeck ∧
   mkCard (Some "4"%char) (Some "C"%char) ∈ Card_newDeck) ∧
  Card_value (mkCard (Some "3"%char) (Some "D"%char)) <
  Card_value (mkCard (Some "4"%char) (Some "C"%char)).
Proof.
  assert (mkCard (Some "3"%char) (Some "D"%char) ∈ Card_newDeck) as H1
    by (apply (bool_decide_unpack _); vm_compute; exact I).
  assert (mkCard (Some "4"%char) (Some "C"%char) ∈ Card_newDeck) as H2
    by (apply (bool_decide_unpack _); vm_compute; exact I).
  split; [done |].
  destruct (deck_value_order _ _ H1 H2) as (_ & _ & _ & _ & Hlt).
  apply Hlt. left. vm_compute. reflexivity.
Defined.

Lemma value_zero_lowest c : Card_value c = 0 ↔ c = Card_lowest.
Proof.
  split; [| by intros ->].
  unfold Card_value. pose proof (rankIndex_range c). pose proof (suitIndex_range c).
  intros Hv. assert (rankIndex c = 0 ∧ suitIndex c = 0) as [Hr Hs] by lia.
  destruct c as [r u]. unfold rankIndex, suitIndex in Hr, Hs. simpl in Hr, Hs.
  apply index_zero in Hr as ->. apply index_zero in Hs as ->. done.
Qed.

(** X3. Whatever text a card was read from, its value is that of
    [Card.lowest] only if it is the card 3C, which is how [setup] finds the
    seat that leads; and no card of the deck has a lower value. *)
Theorem lowest_card_by_value :
  (∀ c, Card_value c = Card_value Card_lowest ↔ c = Card_lowest) ∧
  (∀ c, c ∈ Card_newDeck → Card_value Card_lowest ≤ Card_value c) ∧
  Card_lowest ∈ Card_newDeck.
Proof.
  split; [apply value_zero_lowest |]. split.
  - intros c Hc. pose proof (deck_card_range c Hc).
    change (Card_value Card_lowest) with 0. unfold Card_value. lia.
  - apply (bool_decide_unpack _). vm_compute. exact I.
Qed.

(** ** The evaluator on the cards of the deck *)

Lemma Play_value_owner l p p' : Play_value (mkPlay l p) = Play_value (mkPlay l p').
Proof. reflexivity. Qed.

Lemma byValue_sorted cs :
  StronglySorted (λ x y, Card_value x ≤ Card_value y) (Js.sort byValue cs).
Proof. exact (sort_sorted byValue Card_value byValue_key cs). Qed.

(** X4. For cards of the deck the play that is built, and so its value, do
    not depend on the order in which the cards are given, nor the value on
    the seat that plays them. *)
Theorem value_order_independent (cs cs' : list Card) (p p' : option nat) :
  Forall (λ c, c ∈ Card_newDeck) cs →
  cs ≡ₚ cs' →
  cards (newPlay cs p) = cards (newPlay cs' p') ∧
  Play_value (newPlay cs p) = Play_value (newPlay cs' p').
Proof.
  intros Hdeck Hperm.
  assert (Js.sort byValue cs = Js.sort byValue cs') as Heq.
  { apply (StronglySorted_unique_strong (λ x y, Card_value x ≤ Card_value y));
      try apply byValue_sorted; [| by rewrite !sort_Permutation].
    intros x1 x2 H1 H2 ? ?. rewrite sort_Permutation in H1.
    rewrite sort_Permutation, <- Hperm in H2. rewrite Forall_forall in Hdeck.
    apply deck_value_inj; [by apply Hdeck | by apply Hdeck | lia]. }
  unfold newPlay. cbn [cards]. rewrite Heq. split; [done | apply Play_value_owner].
Qed.

Lemma value_order_independent_witness :
  Forall (λ c, c ∈ Card_newDeck) wheel ∧
  Play_value (newPlay wheel None) = Play_value (newPlay (reverse wheel) (Some 2%nat)).
Proof.
  assert (Forall (λ c, c ∈ Card_newDeck) wheel) as Hdeck
    by (apply (bool_decide_unpack _); vm_compute; exact I).
  split; [done |].
  apply (value_order_independent wheel (reverse wheel) None (Some 2%nat) Hdeck).
  by rewrite reverse_Permutation.
Defined.

Lemma deck_rank_of_index c c' :
  c ∈ Card_newDeck → c' ∈ Card_newDeck → rankIndex c = rankIndex c' → rank c = rank c'.
Proof.
  intros Hc Hc' Heq. rewrite <- (deck_rankOfNum c Hc), <- (deck_rankOfNum c' Hc').
  unfold num. by rewrite Heq.
Qed.

(** In an array sorted by value, a card of the deck that stands between two
    cards of one rank has that rank. *)
Lemma sandwich x y z :
  x ∈ Card_newDeck → y ∈ Card_newDeck → z ∈ Card_newDeck →
  Card_value x ≤ Card_value y → Card_value y ≤ Card_value z →
  Js.toStr (rank x) = Js.toStr (rank z) → Js.toStr (rank y) = Js.toStr (rank x).
Proof.
  intros Hx Hy Hz Hxy Hyz Hr%toStr_inj. f_equal.
  apply deck_rank_of_index; [done | done |].
  assert (rankIndex x = rankIndex z) as Hxz by (unfold rankIndex; by rewrite Hr).
  pose proof (deck_card_range x Hx). pose proof (deck_card_range y Hy).
  pose proof (deck_card_range z Hz). unfold Card_value in *. lia.
Qed.

(** Five cards sorted by the constructor, with what the sorting gives. *)
Lemma sorted_five cs :
  length cs = 5%nat → Forall (λ c, c ∈ Card_newDeck) cs →
  ∃ c0 c1 c2 c3 c4,
    Js.sort byValue cs = [c0; c1; c2; c3; c4] ∧ [c0; c1; c2; c3; c4] ≡ₚ cs ∧
    Forall (λ c, c ∈ Card_newDeck) [c0; c1; c2; c3; c4] ∧
    Card_value c0 ≤ Card_value c1 ∧ Card_value c1 ≤ Card_value c2 ∧
    Card_value c2 ≤ Card_value c3 ∧ Card_value c3 ≤ Card_value c4.
Proof.
  intros Hlen Hdeck.
  pose proof (sort_Permutation byValue cs) as Hperm.
  pose proof (sort_length byValue cs) as Hl. rewrite Hlen in Hl.
  pose proof (byValue_sorted cs) as Hs.
  destruct (Js.sort byValue cs) as [|c0 [|c1 [|c2 [|c3 [|c4 [|? ?]]]]]]; try done.
  exists c0, c1, c2, c3, c4. split; [done |]. split; [done |].
  split; [by rewrite Hperm |].
  repeat (apply StronglySorted_inv in Hs as [Hs ?%Forall_cons_1]).
  intuition.
Qed.

Ltac list_members H :=
  repeat (apply Forall_cons in H as [? H]).

(** X5. Of five cards of the deck with four of one rank, the value [quadro]
    returns is the value of one of the four, as the comment in the source
    says of the second card of the sorted array. *)
Theorem quadro_value_in_quad (cs : list Card) (p : option nat) (v : Z) :
  length cs = 5%nat →
  Forall (λ c, c ∈ Card_newDeck) cs →
  Play_quadro (newPlay cs p) = Some v →
  ∃ c, c ∈ cs ∧ v = Card_value c ∧ rankCount (Js.toStr (rank c)) cs = 4%nat.
Proof.
  intros Hlen Hdeck.
  destruct (sorted_five cs Hlen Hdeck)
    as (c0 & c1 & c2 & c3 & c4 & Hsort & Hperm & Hd & H01 & H12 & H23 & H34).
  unfold Play_quadro, newPlay. cbn [cards]. rewrite Hsort.
  destruct (withSameRank_has _ 4) eqn:Hhas; [| done]. simpl. intros [= <-].
  apply withSameRank_has_count in Hhas as [k Hk]; [| lia]. cbn [cards] in Hk.
  exists c1. split; [rewrite <- Hperm; in_list |]. split; [done |].
  rewrite <- Hperm. list_members Hd.
  assert (Js.toStr (rank c1) = k) as ->; [| done].
  unfold rankCount in Hk. rewrite !filter_cons, filter_nil in Hk.
  destruct (decide (Js.toStr (rank c1) = k)) as [| Hne]; [done |]. exfalso.
  repeat case_decide; simpl in Hk; try lia.
  apply Hne. subst k. apply (sandwich c0 c1 c2); first [done | lia | congruence].
Qed.

(** X6. Of five cards of the deck with three of one rank, the value
    [fullHouse] returns is the value of one of the three, as the comment in
    the source says of the middle card of the sorted array. *)
Theorem fullHouse_value_in_trio (cs : list Card) (p : option nat) (v : Z) :
  length cs = 5%nat →
  Forall (λ c, c ∈ Card_newDeck) cs →
  Play_fullHouse (newPlay cs p) = Some v →
  ∃ c, c ∈ cs ∧ v = Card_value c ∧ rankCount (Js.toStr (rank c)) cs = 3%nat.
Proof.
  intros Hlen Hdeck.
  destruct (sorted_five cs Hlen Hdeck)
    as (c0 & c1 & c2 & c3 & c4 & Hsort & Hperm & Hd & H01 & H12 & H23 & H34).
  unfold Play_fullHouse, newPlay. cbn [cards]. rewrite Hsort.
  destruct (withSameRank_has _ 2); [| done].
  destruct (withSameRank_has _ 3) eqn:Hhas; [| done]. simpl. intros [= <-].
  apply withSameRank_has_count in Hhas as [k Hk]; [| lia]. cbn [cards] in Hk.
  exists c2. split; [rewrite <- Hperm; in_list |]. split; [done |].
  rewrite <- Hperm. list_members Hd.
  assert (Js.toStr (rank c2) = k) as ->; [| done].
  unfold rankCount in Hk. rewrite !filter_cons, filter_nil in Hk.
  destruct (decide (Js.toStr (rank c2) = k)) as [| Hne]; [done |]. exfalso.
  apply Hne.
  repeat case_decide; simpl in Hk; try lia; subst k;
    first [ by apply (sandwich c0 c2 c3); first [done | lia | congruence]
          | by apply (sandwich c0 c2 c4); first [done | lia | congruence]
          | by apply (sandwich c1 c2 c3); first [done | lia | congruence]
          | by apply (sandwich c1 c2 c4); first [done | lia | congruence] ].
Qed.

Lemma quadro_value_in_quad_witness :
  let cs := Card_fromString <$> ["4C"; "3D"; "3C"; "3H"; "3S"] in
  (length cs = 5%nat ∧ Forall (λ c, c ∈ Card_newDeck) cs ∧
   Play_quadro (newPlay cs None) = Some 1) ∧
  ∃ c, c ∈ cs ∧ 1 = Card_value c ∧ rankCount (Js.toStr (rank c)) cs = 4%nat.
Proof.
  intros cs.
  assert (Forall (λ c, c ∈ Card_newDeck) cs) as Hdeck
    by (apply (bool_decide_unpack _); vm_compute; exact I).
  assert (Play_quadro (newPlay cs None) = Some 1) as Hq by (vm_compute; reflexivity).
  split; [done |].
  exact (quadro_value_in_quad cs None 1 eq_refl Hdeck Hq).
Defined.

Lemma fullHouse_value_in_trio_witness :
  let cs := Card_fromString <$> ["3C"; "4D"; "4S"; "3H"; "4C"] in
  (length cs = 5%nat ∧ Forall (λ c, c ∈ Card_newDeck) cs ∧
   Play_fullHouse (newPlay cs None) = Some 4) ∧
  ∃ c, c ∈ cs ∧ 4 = Card_value c ∧ rankCount (Js.toStr (rank c)) cs = 3%nat.
Proof.
  intros cs.
  assert (Forall (λ c, c ∈ Card_newDeck) cs) as Hdeck
    by (apply (bool_decide_unpack _); vm_compute; exact I).
  assert (Play_fullHouse (newPlay cs None) = Some 4) as Hq by (vm_compute; reflexivity).
  split; [done |].
  exact (fullHouse_value_in_trio cs None 4 eq_refl Hdeck Hq).
Defined.

Lemma classify_Flush p v :
  classify p = (Flush, v) → Play_flush p = Some v.
Proof.
  unfold classify.
  destruct (Js.ifTruthy (Play_straight p)); [by destruct (Js.truthy _) |].
  destruct (Js.ifTruthy (Play_quadro p)); [done |].
  destruct (Js.ifTruthy (Play_fullHouse p)); [done |].
  destruct (Js.ifTruthy (Play_flush p)) as [w|] eqn:Hf; [| done].
  intros [= <-]. by apply ifTruthy_Some in Hf as [? _].
Qed.

(** What [flush] returns: all the cards have the suit of the last one, and
    the value is thirteen times its suit plus its rank. *)
Lemma Play_flush_inv p v :
  Play_flush p = Some v →
  ∃ c4, cards p !! 4%nat = Some c4 ∧ v = suitIndex c4 * 13 + rankIndex c4 ∧
        ∀ c, c ∈ cards p → suitIndex c = suitIndex c4.
Proof.
  unfold Play_flush.
  destruct (cards p !! 0%nat) as [c0|]; [| done].
  destruct (cards p !! 4%nat) as [c4|] eqn:H4; [| done].
  destruct (forallb _ _) eqn:Hall; [| done]. intros [= <-].
  exists c4. split; [done |]. split; [done |].
  rewrite forallb_forall in Hall.
  assert (∀ c, c ∈ cards p → suit c = suit c0) as Hs.
  { intros c Hc%list_elem_of_In. by apply Hall, bool_decide_eq_true in Hc. }
  intros c Hc. unfold suitIndex. rewrite (Hs c Hc), (Hs c4); [done |].
  by eapply list_elem_of_lookup_2.
Qed.

(** X8. Between two flushes the suit decides before the rank: a flush in a
    higher suit has the greater value whatever the ranks, and within one
    suit the flush whose highest card has the higher rank. *)
Theorem flush_suit_before_rank (p1 p2 : Play) (v1 v2 : Z) (c1 c2 : Card) :
  Forall (λ c, c ∈ Card_newDeck) (cards p1) →
  Forall (λ c, c ∈ Card_newDeck) (cards p2) →
  classify p1 = (Flush, v1) →
  classify p2 = (Flush, v2) →
  cards p1 !! 4%nat = Some c1 →
  cards p2 !! 4%nat = Some c2 →
  (∀ c, c ∈ cards p1 → suit c = suit c1) ∧
  (∀ c, c ∈ cards p2 → suit c = suit c2) ∧
  (v1 < v2 ↔
     suitIndex c1 < suitIndex c2 ∨
     (suitIndex c1 = suitIndex c2 ∧ rankIndex c1 < rankIndex c2)).
Proof.
  intros Hd1 Hd2 Hk1%classify_Flush Hk2%classify_Flush H1 H2.
  assert (∀ p c4, Play_flush p ≠ None → cards p !! 4%nat = Some c4 →
            ∀ c, c ∈ cards p → suit c = suit c4) as Hsuit.
  { clear. intros p c4. unfold Play_flush. intros Hf H4.
    destruct (cards p !! 0%nat) as [c0|]; [| done]. rewrite H4 in Hf.
    destruct (forallb _ _) eqn:Hall; [| done].
    rewrite forallb_forall in Hall.
    assert (∀ c, c ∈ cards p → suit c = suit c0) as Hs.
    { intros c Hc%list_elem_of_In. by apply Hall, bool_decide_eq_true in Hc. }
    intros c Hc. rewrite (Hs c Hc), (Hs c4); [done |].
    by eapply list_elem_of_lookup_2. }
  split; [apply Hsuit; [by rewrite Hk1 | done] |].
  split; [apply Hsuit; [by rewrite Hk2 | done] |].
  apply Play_flush_inv in Hk1 as (c1' & H1' & -> & _).
  apply Play_flush_inv in Hk2 as (c2' & H2' & -> & _).
  rewrite H1 in H1'. rewrite H2 in H2'. injection H1' as <-. injection H2' as <-.
  rewrite Forall_forall in Hd1, Hd2.
  pose proof (deck_card_range c1 (Hd1 _ (list_elem_of_lookup_2 _ _ _ H1))).
  pose proof (deck_card_range c2 (Hd2 _ (list_elem_of_lookup_2 _ _ _ H2))).
  lia.
Qed.

Lemma flush_suit_before_rank_witness :
  let low := Play_fromString ["3S"; "5S"; "7S"; "9S"; "2S"] None in
  let high := Play_fromString ["3D"; "4D"; "6D"; "7D"; "8D"] None in
  (classify low = (Flush, 25) ∧ classify high = (Flush, 44)) ∧ 25 < 44.
Proof.
  intros low high.
  assert (Forall (λ c, c ∈ Card_newDeck) (cards low)) as Hd1
    by (apply (bool_decide_unpack _); vm_compute; exact I).
  assert (Forall (λ c, c ∈ Card_newDeck) (cards high)) as Hd2
    by (apply (bool_decide_unpack _); vm_compute; exact I).
  assert (classify low = (Flush, 25)) as Hk1 by (vm_compute; reflexivity).
  assert (classify high = (Flush, 44)) as Hk2 by (vm_compute; reflexivity).
  split; [done |].
  destruct (flush_suit_before_rank low high 25 44
              (Card_fromString "2S") (Card_fromString "8D")
              Hd1 Hd2 Hk1 Hk2 eq_refl eq_refl) as (_ & _ & Hlt).
  apply Hlt. left. vm_compute. reflexivity.
Defined.

Lemma at_4_last l : length l = 5%nat → last l = Some (at_ l 4).
Proof. destruct l as [|? [|? [|? [|? [|? [|? ?]]]]]]; done. Qed.

Lemma ascending_least l y :
  l ≠ [] → y ∈ l → at_ (Js.sort Js.ascending l) 0 ≤ y.
Proof.
  intros Hne Hy. destruct (Js.sort Js.ascending l) as [|x rest] eqn:Hs.
  - apply (f_equal length) in Hs. rewrite sort_length in Hs. by destruct l.
  - exact (sort_head_least Js.ascending (λ x, x) ascending_key l x rest y Hs Hy).
Qed.

Lemma ascending_greatest l y :
  length l = 5%nat → y ∈ l → y ≤ at_ (Js.sort Js.ascending l) 4.
Proof.
  intros Hlen Hy.
  apply (sort_last_greatest Js.ascending (λ x, x) ascending_key l _ y); [| done].
  apply at_4_last. by rewrite sort_length.
Qed.

(** X7. The value [straight] returns is the value of one of the cards: the
    card with the greatest number, or, where the ace was taken as high, the
    ace, every other card then being a ten or higher. *)
Theorem straight_value_top_card (p : Play) (v : Z) :
  Play_straight p = Some v →
  ∃ c, c ∈ cards p ∧ v = Card_value c ∧
    ((∀ c', c' ∈ cards p → num c' ≤ num c) ∨
     (num c = 0 ∧ ∀ c', c' ∈ cards p → num c' = 0 ∨ 9 ≤ num c')).
Proof.
  unfold Play_straight. cbn zeta.
  set (numSet := Js.setOf (num <$> cards p)).
  set (nums := Js.sort Js.ascending numSet).
  case_bool_decide as Hlen; [| done].
  assert (∀ c', c' ∈ cards p → num c' ∈ numSet) as Hset.
  { intros c' Hc'. apply elem_of_setOf, list_elem_of_fmap. by exists c'. }
  destruct (at_ nums 0 + 4 =? at_ nums 4) eqn:H1.
  { destruct (List.find _ _) as [c|] eqn:Hfind; [| done]. intros [= <-].
    apply find_some in Hfind as [Hc%list_elem_of_In Hn]. exists c.
    split; [done |]. split; [done |]. left. intros c' Hc'.
    pose proof (ascending_greatest numSet (num c') Hlen (Hset c' Hc')).
    fold nums in H. lia. }
  destruct (at_ nums 0 =? 0) eqn:H2; [| done].
  set (nums' := Js.sort Js.ascending (<[0%nat := 13]> nums)).
  destruct (at_ nums' 0 + 4 =? at_ nums' 4) eqn:H3; [| done].
  destruct (List.find _ _) as [c|] eqn:Hfind; [| done]. intros [= <-].
  apply find_some in Hfind as [Hc%list_elem_of_In Hn]. exists c.
  split; [done |]. split; [done |]. right. split; [lia |]. intros c' Hc'.
  assert (num c' ∈ nums) as Hin by (unfold nums; rewrite sort_Permutation; by apply Hset).
  assert (length nums = 5%nat) as Hl by (unfold nums; by rewrite sort_length).
  destruct nums as [|n0 rest] eqn:Hnums; [done |].
  change (at_ (n0 :: rest) 0) with n0 in H2.
  assert (length (13 :: rest) = 5%nat) as Hl' by (simpl in *; lia).
  pose proof (ascending_greatest (13 :: rest) 13 Hl' ltac:(in_list)) as Hmax.
  apply elem_of_cons in Hin as [-> | Hin]; [left; lia | right].
  pose proof (ascending_least (13 :: rest) (num c') ltac:(done)
                ltac:(by apply list_elem_of_further)) as Hmin.
  change (<[0%nat:=13]> (n0 :: rest)) with (13 :: rest) in nums'.
  fold nums' in Hmax, Hmin. lia.
Qed.

Lemma straight_value_top_card_witness :
  Play_straight (newPlay wheel None) = Some 11 ∧
  ∃ c, c ∈ cards (newPlay wheel None) ∧ 11 = Card_value c ∧
    ((∀ c', c' ∈ cards (newPlay wheel None) → num c' ≤ num c) ∨
     (num c = 0 ∧ ∀ c', c' ∈ cards (newPlay wheel None) → num c' = 0 ∨ 9 ≤ num c')).
Proof.
  assert (Play_straight (newPlay wheel None) = Some 11) as H by (vm_compute; reflexivity).
  split; [done |]. exact (straight_value_top_card _ _ H).
Defined.

(** ** What [play] does to the hand *)

Lemma splice_rest_sublist {A} (l : list A) start count :
  (Js.splice l start count).2 `sublist_of` l.
Proof.
  unfold Js.splice. cbn [snd].
  set (len := Z.of_nat (length l)).
  set (from := if start <? 0 then Z.max (len + start) 0 else Z.min start len).
  set (cnt := Z.min (Z.max count 0) (len - from)).
  assert (0 ≤ from ≤ len) by (unfold from; destruct (start <? 0) eqn:?; lia).
  assert (0 ≤ cnt) by (unfold cnt; lia).
  replace (Z.to_nat (from + cnt)) with (Z.to_nat from + Z.to_nat cnt)%nat by lia.
  rewrite <- drop_drop.
  rewrite <- (take_drop (Z.to_nat from) l) at 3.
  apply sublist_app; [done | apply sublist_drop].
Qed.

Lemma arrayIndexOf_range l x : -1 ≤ Js.arrayIndexOf l x < Z.of_nat (length l).
Proof.
  induction l as [|y l IH]; cbn [Js.arrayIndexOf length]; [lia |].
  case_bool_decide; [lia |]. cbn zeta.
  destruct (Js.arrayIndexOf l x <? 0) eqn:?; lia.
Qed.

Lemma arrayIndexOf_found l x :
  x ∈ l → ∃ i, Js.arrayIndexOf l x = Z.of_nat i ∧ l !! i = Some x.
Proof.
  induction l as [|y l IH]; [by intros ?%elem_of_nil |].
  intros Hin. simpl. case_bool_decide as Hy.
  - subst y. by exists 0%nat.
  - apply elem_of_cons in Hin as [-> | Hin]; [done |].
    destruct (IH Hin) as (i & Hi & Hl). rewrite Hi.
    destruct (Z.of_nat i <? 0) eqn:?; [lia |].
    exists (S i). split; [lia | done].
Qed.

(** [splice (i, 1)] at an index from -1 to the last one takes one element
    out of an array that has one. *)
Lemma splice_one_length {A} (l : list A) start :
  -1 ≤ start < Z.of_nat (length l) →
  length (Js.splice l start 1).2 = (length l - 1)%nat.
Proof.
  intros Hs. unfold Js.splice. cbn [snd].
  rewrite length_app, length_take, length_drop.
  destruct (start <? 0) eqn:?; lia.
Qed.

Lemma splice_found {A} (l : list A) i x :
  l !! i = Some x → (Js.splice l (Z.of_nat i) 1).1 = [x].
Proof.
  intros Hl. pose proof (lookup_lt_Some _ _ _ Hl) as Hlt.
  unfold Js.splice. cbn [fst].
  destruct (Z.of_nat i <? 0) eqn:?; [lia |].
  replace (Z.to_nat (Z.min (Z.of_nat i) (Z.of_nat (length l)))) with i by lia.
  replace (Z.to_nat (Z.min (Z.max 1 0) _)) with 1%nat by lia.
  by rewrite (drop_S _ _ _ Hl).
Qed.

Lemma takeFromHand_sublist hand ps : (takeFromHand hand ps).2 `sublist_of` hand.
Proof.
  revert hand. induction ps as [|c ps IH]; intros hand; [done |].
  cbn [takeFromHand].
  pose proof (splice_rest_sublist hand (Js.arrayIndexOf hand c) 1) as Hs.
  destruct (Js.splice hand _ 1) as [removed hand1]. cbn [snd] in Hs.
  specialize (IH hand1). destruct (takeFromHand hand1 ps) as [d hand2].
  cbn [snd] in *. by etrans.
Qed.

(** Every text of the play takes one card out of the hand, whether the hand
    has such a card or not, as long as the hand has a card left. *)
Lemma takeFromHand_length hand ps :
  length (takeFromHand hand ps).2 = (length hand - length ps)%nat ∧
  length (takeFromHand hand ps).1 = length ps.
Proof.
  revert hand. induction ps as [|c ps IH]; intros hand; [simpl; lia |].
  cbn [takeFromHand].
  pose proof (splice_one_length hand _ (arrayIndexOf_range hand c)) as Hs.
  destruct (Js.splice hand _ 1) as [removed hand1]. cbn [snd] in Hs.
  specialize (IH hand1). destruct (takeFromHand hand1 ps) as [d hand2].
  cbn [fst snd length] in *. lia.
Qed.

(** Texts that are all different and all in the hand are taken out as they
    are, in the order of the play. *)
Lemma takeFromHand_distinct hand ps :
  NoDup ps → (∀ c, c ∈ ps → c ∈ hand) →
  (takeFromHand hand ps).1 = Some <$> ps.
Proof.
  revert hand. induction ps as [|c ps IH]; intros hand Hnd Hin; [done |].
  cbn [takeFromHand]. apply NoDup_cons in Hnd as [Hc Hnd].
  destruct (arrayIndexOf_found hand c (Hin c ltac:(in_list))) as (i & Hi & Hl).
  rewrite Hi. pose proof (splice_found hand i c Hl) as Hrem.
  pose proof (splice_Permutation hand (Z.of_nat i) 1) as Hperm.
  destruct (Js.splice hand _ 1) as [removed hand1]. cbn [fst snd] in Hrem, Hperm.
  subst removed. specialize (IH hand1 Hnd).
  destruct (takeFromHand hand1 ps) as [d hand2]. cbn [fst] in *.
  rewrite IH; [done |]. intros c' Hc'.
  assert (c' ∈ hand) as Hh by (apply Hin; by apply list_elem_of_further).
  rewrite Hperm in Hh. apply elem_of_cons in Hh as [-> | Hh]; done.
Qed.

(** All that an accepted [play] leaves in the state. *)
Lemma play_accepted_fields ctx cs G G' :
  play ctx cs G = (inr (), G') →
  ∃ hand v,
    players G !! currentPlayer ctx = Some hand ∧
    Play_value (Play_fromString cs (Some (currentPlayer ctx))) = Some v ∧
    (∀ c, c ∈ Play_toStrings (Play_fromString cs (Some (currentPlayer ctx))) → c ∈ hand) ∧
    G' = mkState
           (<[currentPlayer ctx :=
                (takeFromHand hand (Play_toStrings (Play_fromString cs (Some (currentPlayer ctx))))).2]>
              (players G))
           (<[currentPlayer ctx :=
                length (takeFromHand hand (Play_toStrings (Play_fromString cs (Some (currentPlayer ctx))))).2]>
              (remaining G))
           (firstTurn G)
           (match lastPlay G with None => true | Some _ => hasStarted G end)
           (discarded G ++
              [(takeFromHand hand (Play_toStrings (Play_fromString cs (Some (currentPlayer ctx))))).1])
           (if (length (takeFromHand hand (Play_toStrings (Play_fromString cs (Some (currentPlayer ctx))))).2 =? 0)%nat
            then None else Some (Play_fromString cs (Some (currentPlayer ctx))))
           (if (length (takeFromHand hand (Play_toStrings (Play_fromString cs (Some (currentPlayer ctx))))).2 =? 0)%nat
            then winners G ++ [currentPlayer ctx] else winners G).
Proof.
  intros Hplay.
  apply play_accepted_inv in Hplay as (v & hand & G1 & Hv & Hhand & Hin & Hc & Hd).
  exists hand, v. split; [done |]. split; [done |]. split; [done |].
  rewrite discardPlay_eq in Hd. injection Hd as <-. cbn zeta.
  apply checkTable_inv in Hc as [(? & _) | (_ & Hc)]; [done |].
  destruct (lastPlay G) as [last|] eqn:Hlast.
  - destruct Hc as (-> & _). by destruct G.
  - destruct (hasStarted G) eqn:Hs.
    + subst G1. destruct G; simpl in *; by subst.
    + destruct Hc as (_ & ->). by destruct G.
Qed.

Lemma play_length cs p :
  is_Some (Play_value (Play_fromString cs p)) →
  length cs = 1%nat ∨ length cs = 2%nat ∨ length cs = 3%nat ∨ length cs = 5%nat.
Proof.
  unfold Play_value, Play_fromString, newPlay. cbn [cards].
  rewrite sort_length, length_fmap.
  destruct (length cs) as [|[|[|[|[|[|n]]]]]]; intros [v Hv]; try done; tauto.
Qed.

(** X9. An accepted play has one, two, three or five card texts, all of
    them in the hand of the seat.  It takes as many cards out of that hand
    as it has texts (all of them, if the hand has fewer), leaves the other
    cards of the hand in their order and the other hands as they were, and
    appends one group of as many entries to [discarded]. *)
Theorem accepted_play_shrinks_hand (ctx : Ctx) (cs : list CardStr) (G : State) :
  accepted (play ctx cs G) →
  (length cs = 1 ∨ length cs = 2 ∨ length cs = 3 ∨ length cs = 5)%nat ∧
  ∃ hand hand' group,
    players G !! currentPlayer ctx = Some hand ∧
    players (play ctx cs G).2 !! currentPlayer ctx = Some hand' ∧
    (∀ c, c ∈ Play_toStrings (Play_fromString cs (Some (currentPlayer ctx))) → c ∈ hand) ∧
    hand' `sublist_of` hand ∧
    length hand' = (length hand - length cs)%nat ∧
    (length hand' < length hand)%nat ∧
    discarded (play ctx cs G).2 = discarded G ++ [group] ∧
    length group = length cs ∧
    ∀ s, s ≠ currentPlayer ctx →
         players (play ctx cs G).2 !! s = players G !! s.
Proof.
  intros Hacc. destruct (play ctx cs G) as [r G'] eqn:Hplay.
  unfold accepted in Hacc. simpl in Hacc. subst r. cbn [snd].
  apply play_accepted_fields in Hplay as (hand & v & Hhand & Hv & Hin & ->).
  set (ps := Play_toStrings (Play_fromString cs (Some (currentPlayer ctx)))) in *.
  assert (length ps = length cs) as Hps.
  { unfold ps, Play_toStrings, Play_fromString, newPlay. cbn [cards].
    by rewrite length_fmap, sort_length, length_fmap. }
  destruct (takeFromHand_length hand ps) as [Hl1 Hl2].
  pose proof (play_length cs (Some (currentPlayer ctx)) ltac:(by rewrite Hv)) as Hlen.
  assert (hand ≠ []) as Hne.
  { destruct ps as [|c ?] eqn:Hp; [simpl in Hps; lia |].
    intros ->. by apply (elem_of_nil c), Hin, list_elem_of_here. }
  split; [done |].
  exists hand, (takeFromHand hand ps).2, (takeFromHand hand ps).1.
  cbn [players discarded].
  split; [done |]. split; [by rewrite lookup_insert_eq |]. split; [done |].
  split; [apply takeFromHand_sublist |]. split; [lia |].
  split; [destruct hand; [done | cbn [length] in *; lia] |].
  split; [done |]. split; [lia |]. intros s Hs. by rewrite lookup_insert_ne.
Qed.

Lemma accepted_play_shrinks_hand_witness :
  accepted (play seat0 ["3C"] dealtInOrder) ∧
  ∃ hand hand' group,
    players dealtInOrder !! currentPlayer seat0 = Some hand ∧
    players (play seat0 ["3C"] dealtInOrder).2 !! currentPlayer seat0 = Some hand' ∧
    (∀ c, c ∈ Play_toStrings (Play_fromString ["3C"] (Some (currentPlayer seat0))) →
          c ∈ hand) ∧
    hand' `sublist_of` hand ∧
    length hand' = (length hand - length ["3C"])%nat ∧
    (length hand' < length hand)%nat ∧
    discarded (play seat0 ["3C"] dealtInOrder).2 = discarded dealtInOrder ++ [group] ∧
    length group = length ["3C"] ∧
    ∀ s, s ≠ currentPlayer seat0 →
         players (play seat0 ["3C"] dealtInOrder).2 !! s = players dealtInOrder !! s.
Proof.
  split; [exact first_play_accepted |].
  exact (proj2 (accepted_play_shrinks_hand seat0 ["3C"] dealtInOrder first_play_accepted)).
Defined.

(** X10. An accepted play whose card texts are all different moves exactly
    those cards: the group appended to [discarded] is the texts of the play
    in its sorted order, and the hand was these texts and what is left of
    it. *)
Theorem accepted_play_moves_its_cards (ctx : Ctx) (cs : list CardStr) (G : State)
    (hand : list CardStr) :
  accepted (play ctx cs G) →
  players G !! currentPlayer ctx = Some hand →
  NoDup (Play_toStrings (Play_fromString cs (Some (currentPlayer ctx)))) →
  ∃ hand',
    players (play ctx cs G).2 !! currentPlayer ctx = Some hand' ∧
    discarded (play ctx cs G).2 =
      discarded G ++ [Some <$> Play_toStrings (Play_fromString cs (Some (currentPlayer ctx)))] ∧
    hand ≡ₚ Play_toStrings (Play_fromString cs (Some (currentPlayer ctx))) ++ hand' ∧
    remaining (play ctx cs G).2 !! currentPlayer ctx = Some (length hand').
Proof.
  intros Hacc Hhand Hnd. destruct (play ctx cs G) as [r G'] eqn:Hplay.
  unfold accepted in Hacc. simpl in Hacc. subst r. cbn [snd].
  apply play_accepted_fields in Hplay as (hand1 & v & Hhand1 & Hv & Hin & ->).
  rewrite Hhand in Hhand1. injection Hhand1 as <-.
  set (ps := Play_toStrings (Play_fromString cs (Some (currentPlayer ctx)))) in *.
  pose proof (takeFromHand_distinct hand ps Hnd Hin) as Hd.
  pose proof (takeFromHand_Permutation hand ps) as Hp.
  exists (takeFromHand hand ps).2. cbn [players discarded remaining].
  rewrite !lookup_insert_eq, Hd. split; [done |]. split; [done |].
  split; [| reflexivity].
  etrans; [exact Hp |]. rewrite Hd. unfold groupCards.
  assert (omap id (Some <$> ps) = ps) as ->; [| done].
  clear. induction ps as [|c ps IH]; [done |]. simpl. by f_equal.
Qed.

Lemma accepted_play_moves_its_cards_witness :
  (accepted (play seat0 ["3S"; "3C"] dealtInOrder) ∧
   players dealtInOrder !! currentPlayer seat0 = Some hand0) ∧
  ∃ hand',
    players (play seat0 ["3S"; "3C"] dealtInOrder).2 !! currentPlayer seat0 = Some hand' ∧
    discarded (play seat0 ["3S"; "3C"] dealtInOrder).2 =
      discarded dealtInOrder ++
      [Some <$> Play_toStrings (Play_fromString ["3S"; "3C"] (Some (currentPlayer seat0)))] ∧
    hand0 ≡ₚ Play_toStrings (Play_fromString ["3S"; "3C"] (Some (currentPlayer seat0))) ++ hand' ∧
    remaining (play seat0 ["3S"; "3C"] dealtInOrder).2 !! currentPlayer seat0 =
      Some (length hand').
Proof.
  assert (accepted (play seat0 ["3S"; "3C"] dealtInOrder)) as Hacc
    by (vm_compute; reflexivity).
  assert (players dealtInOrder !! currentPlayer seat0 = Some hand0) as Hhand
    by (vm_compute; reflexivity).
  split; [done |].
  apply (accepted_play_moves_its_cards seat0 ["3S"; "3C"] dealtInOrder hand0 Hacc Hhand).
  apply (bool_decide_unpack _). vm_compute. exact I.
Defined.

(** ** What [setup] deals *)

Lemma splice_front {A} (l : list A) (n : nat) :
  Js.splice l 0 (Z.of_nat n) = (take n l, drop n l).
Proof.
  unfold Js.splice. change (0 <? 0) with false. cbv iota.
  set (len := Z.of_nat (length l)).
  replace (Z.min 0 len) with 0 by lia.
  set (cnt := Z.min (Z.max (Z.of_nat n) 0) (len - 0)).
  replace (0 + cnt) with cnt by lia. change (Z.to_nat 0) with 0%nat.
  rewrite drop_0, take_0, app_nil_l.
  destruct (decide (n ≤ length l)%nat).
  - by replace (Z.to_nat cnt) with n by lia.
  - replace (Z.to_nat cnt) with (length l) by lia.
    by rewrite !take_ge, !drop_ge by lia.
Qed.

Lemma splice_13 {A} (l : list A) : Js.splice l 0 13 = (take 13 l, drop 13 l).
Proof. exact (splice_front l 13). Qed.

(** One round of the loop of [deal]. *)
Lemma deal_step c deck m r f :
  deal (c :: deck) m r f =
  deal (drop 13 (c :: deck))
       (<[size m := Card_toString <$> take 13 (c :: deck)]> m)
       (<[size m := length (take 13 (c :: deck))]> r)
       (if existsb (λ c, Card_value c =? Card_value Card_lowest) (take 13 (c :: deck))
        then size m else f).
Proof. simp deal. cbn zeta. by rewrite (splice_13 (c :: deck)). Qed.

Lemma deal_dense deck m r f : dense m → dense (deal deck m r f).1.1.
Proof.
  funelim (deal deck m r f); intros Hd; [done |].
  apply H. by apply dense_insert.
Qed.

Lemma deal_keeps deck m r f s :
  dense m → (s < size m)%nat → (deal deck m r f).1.1 !! s = m !! s.
Proof.
  funelim (deal deck m r f); intros Hd Hs; [done |].
  rewrite H.
  - apply lookup_insert_ne. lia.
  - by apply dense_insert.
  - rewrite map_size_insert_None by by apply dense_fresh. lia.
Qed.

(** The hands of a deck of [13 * k] cards: seat [s] gets the cards from
    [13 * s] on. *)
Lemma deal_lookup k : ∀ deck m r f s,
  length deck = (13 * k)%nat → dense m →
  (deal deck m r f).1.1 !! s =
  if decide (s < size m)%nat then m !! s
  else if decide (s < size m + k)%nat
       then Some (Card_toString <$> take 13 (drop (13 * (s - size m)) deck))
       else None.
Proof.
  induction k as [|k IH]; intros deck m r f s Hlen Hd.
  - apply nil_length_inv in Hlen as ->. simp deal. cbn [fst].
    destruct (Hd s) as [H1 H2]. repeat case_decide; try lia; [done |].
    apply eq_None_not_Some. intros ?%H1. lia.
  - destruct deck as [|c deck]; [simpl in Hlen; lia |].
    rewrite deal_step, IH; [| rewrite length_drop; lia | by apply dense_insert].
    rewrite map_size_insert_None by by apply dense_fresh.
    repeat case_decide; try lia.
    + apply lookup_insert_ne. lia.
    + assert (s = size m) as -> by lia. rewrite lookup_insert_eq.
      by replace (13 * (size m - size m))%nat with 0%nat by lia.
    + rewrite drop_drop. do 4 f_equal. lia.
    + done.
Qed.

Lemma deal_remaining deck m r f :
  (∀ s, r !! s = length <$> m !! s) →
  ∀ s, (deal deck m r f).1.2 !! s = length <$> (deal deck m r f).1.1 !! s.
Proof.
  funelim (deal deck m r f); intros Hr; [done |].
  apply H. intros s. destruct (decide (size players0 = s)) as [<- | Hne].
  - rewrite !lookup_insert_eq. simpl. by rewrite length_fmap.
  - rewrite !lookup_insert_ne by done. apply Hr.
Qed.

Lemma lowest_in_hand (hand : list Card) :
  existsb (λ c, Card_value c =? Card_value Card_lowest) hand = true ↔
  Card_lowest ∈ hand.
Proof.
  rewrite existsb_exists. split.
  - intros (c & Hc%list_elem_of_In & Hv). apply Z.eqb_eq, value_zero_lowest in Hv.
    by subst.
  - intros Hin. exists Card_lowest. split; [by apply list_elem_of_In | done].
Qed.

(** The seat [deal] returns holds the card 3C, if the deck has it. *)
Lemma deal_firstTurn deck m r f :
  dense m →
  (Card_lowest ∈ deck →
     ∃ hand, (deal deck m r f).1.1 !! (deal deck m r f).2 = Some hand ∧
             Card_toString Card_lowest ∈ hand) ∧
  (Card_lowest ∉ deck → (deal deck m r f).2 = f).
Proof.
  funelim (deal deck m r f); intros Hd.
  { split; [by intros ?%elem_of_nil | done]. }
  rewrite (splice_13 (c :: deck')) in *. cbn [fst snd] in *.
  destruct (H (dense_insert _ _ Hd)) as [Hin Hout]. clear H.
  destruct (decide (Card_lowest ∈ drop 13 (c :: deck'))) as [Hrest | Hrest].
  { split; [intros _; by apply Hin |]. intros Hnot. exfalso. apply Hnot.
    rewrite <- (take_drop 13 (c :: deck')). apply elem_of_app. by right. }
  rewrite (Hout Hrest). split.
  - intros Hdeck. rewrite <- (take_drop 13 (c :: deck')) in Hdeck.
    apply elem_of_app in Hdeck as [Hhand | ?]; [| done].
    rewrite (proj2 (lowest_in_hand _) Hhand).
    rewrite deal_keeps.
    + rewrite lookup_insert_eq. eexists. split; [done |].
      apply list_elem_of_fmap. by exists Card_lowest.
    + by apply dense_insert.
    + rewrite map_size_insert_None by by apply dense_fresh. lia.
  - intros Hnot.
    destruct (existsb _ _) eqn:Hex; [| done].
    apply lowest_in_hand in Hex. exfalso. apply Hnot.
    rewrite <- (take_drop 13 (c :: deck')). apply elem_of_app. by left.
Qed.

Lemma setup_deal deck :
  setup deck =
  mkState (deal deck ∅ ∅ 0%nat).1.1 (deal deck ∅ ∅ 0%nat).1.2
          (deal deck ∅ ∅ 0%nat).2 false [] None [].
Proof. unfold setup. by destruct (deal deck ∅ ∅ 0%nat) as [[? ?] ?]. Qed.

Lemma setup_state (deck : list Card) :
  length deck = 52%nat →
  (∀ s, players (setup deck) !! s =
        if decide (s < 4)%nat
        then Some (Card_toString <$> take 13 (drop (13 * s) deck)) else None) ∧
  (∀ s, remaining (setup deck) !! s =
        if decide (s < 4)%nat then Some 13%nat else None) ∧
  hasStarted (setup deck) = false ∧ discarded (setup deck) = [] ∧
  lastPlay (setup deck) = None ∧ winners (setup deck) = [].
Proof.
  intros Hlen. rewrite setup_deal. cbn [players remaining hasStarted discarded lastPlay winners].
  assert (∀ s, (deal deck ∅ ∅ 0%nat).1.1 !! s =
               if decide (s < 4)%nat
               then Some (Card_toString <$> take 13 (drop (13 * s) deck)) else None) as Hp.
  { intros s. rewrite (deal_lookup 4) by (done || apply dense_empty).
    rewrite map_size_empty. repeat case_decide; try lia; [| done].
    by rewrite Nat.sub_0_r. }
  split; [done |]. split; [| done].
  intros s. rewrite deal_remaining by (intros; by rewrite !lookup_empty).
  rewrite Hp. case_decide; [| done]. simpl. f_equal.
  rewrite length_fmap, length_take, length_drop. lia.
Qed.

(** X11. [setup] on a deck of 52 cards gives seats 0 to 3 the cards of the
    shuffled deck thirteen at a time, in its order, and no other seat a
    hand; it counts 13 cards for each, and nothing has been played,
    discarded or won. *)
Theorem setup_deals_four_hands (deck : list Card) :
  length deck = 52%nat →
  (∀ s, players (setup deck) !! s =
        if decide (s < 4)%nat
        then Some (Card_toString <$> take 13 (drop (13 * s) deck)) else None) ∧
  (∀ s, remaining (setup deck) !! s =
        if decide (s < 4)%nat then Some 13%nat else None) ∧
  hasStarted (setup deck) = false ∧ discarded (setup deck) = [] ∧
  lastPlay (setup deck) = None ∧ winners (setup deck) = [].
Proof. apply setup_state. Qed.

Lemma setup_deals_four_hands_witness :
  length Card_newDeck = 52%nat ∧
  players (setup Card_newDeck) !! 1%nat =
    Some (Card_toString <$> take 13 (drop 13 Card_newDeck)).
Proof.
  split; [reflexivity |].
  destruct (setup_deals_four_hands Card_newDeck eq_refl) as [Hp _].
  exact (Hp 1%nat).
Defined.

(** X12. When the deck is a shuffle of [Card.newDeck], the seat [firstTurn]
    that [setup] returns is one of the four and holds the card 3C. *)
Theorem setup_first_turn_holds_lowest (deck : list Card) :
  deck ≡ₚ Card_newDeck →
  (firstTurn (setup deck) < 4)%nat ∧
  ∃ hand, players (setup deck) !! firstTurn (setup deck) = Some hand ∧
          "3C" ∈ hand.
Proof.
  intros Hperm.
  assert (Card_lowest ∈ deck) as Hlow.
  { rewrite Hperm. apply (bool_decide_unpack _). vm_compute. exact I. }
  assert (length deck = 52%nat) as Hlen by by rewrite Hperm.
  destruct (deal_firstTurn deck ∅ ∅ 0%nat dense_empty) as [Hin _].
  destruct (Hin Hlow) as (hand & Hhand & H3). clear Hin.
  destruct (setup_state deck Hlen) as [Hp _].
  rewrite setup_deal in *. cbn [players firstTurn] in *.
  split; [| by exists hand].
  specialize (Hp (deal deck ∅ ∅ 0%nat).2). rewrite Hhand in Hp.
  by case_decide.
Qed.

Lemma setup_first_turn_holds_lowest_witness :
  reverse Card_newDeck ≡ₚ Card_newDeck ∧
  firstTurn (setup (reverse Card_newDeck)) = 3%nat ∧
  ∃ hand, players (setup (reverse Card_newDeck)) !!
            firstTurn (setup (reverse Card_newDeck)) = Some hand ∧ "3C" ∈ hand.
Proof.
  assert (reverse Card_newDeck ≡ₚ Card_newDeck) as Hperm by apply reverse_Permutation.
  split; [done |]. split; [vm_compute; reflexivity |].
  exact (proj2 (setup_first_turn_holds_lowest _ Hperm)).
Defined.

(** ** What holds all through a round *)

Lemma pass_accepted_fields ctx G G' :
  pass ctx G = (inr (), G') →
  is_Some (lastPlay G) ∧ (G' = G ∨ G' = set_lastPlay None G).
Proof.
  unfold pass, mbind, Move_bind, get, exit, modify, mret, Move_ret.
  destruct (lastPlay G) as [last|]; [| by intros [=]].
  destruct (getNext G ctx) as [next|]; [| by intros [=]].
  destruct (bool_decide _); intros [= <-]; (split; [by eexists |]); auto.
Qed.

Lemma round_ok_setup deck : deck ≡ₚ Card_newDeck → round_ok (setup deck).
Proof.
  intros Hperm. assert (length deck = 52%nat) as Hlen by by rewrite Hperm.
  destruct (setup_state deck Hlen) as (Hp & Hr & Hs & Hd & Hl & _).
  unfold round_ok, NUM_PLAYERS. repeat split.
  - rewrite Hp. case_decide; [done | by intros [? ?]].
  - rewrite Hp. intros. case_decide; [by eexists | lia].
  - intros s. rewrite Hp, Hr. case_decide; [| done]. simpl. f_equal.
    rewrite length_fmap, length_take, length_drop. lia.
  - by rewrite Hs.
  - by rewrite Hd.
  - by rewrite Hl in H.
  - by rewrite Hl in H.
  - by rewrite Hl in H.
Qed.

Lemma round_ok_step G G' : round_ok G → step G G' → round_ok G'.
Proof.
  intros (Hseats & Hrem & Hstart & Hlast) [ctx [[cs Hplay] | Hpass]].
  - apply play_accepted_fields in Hplay as (hand & v & Hhand & Hv & Hin & ->).
    set (ps := Play_toStrings _) in *. set (t := takeFromHand hand ps).
    split; [| split; [| split]]; cbn [players remaining hasStarted discarded lastPlay].
    + intros s. rewrite lookup_insert_is_Some'. rewrite <- Hseats.
      split; [intros [<- | ?]; [by eexists | done] | by right].
    + intros s. destruct (decide (currentPlayer ctx = s)) as [<- | Hne].
      * by rewrite !lookup_insert_eq.
      * rewrite !lookup_insert_ne by done. apply Hrem.
    + split; [intros _; by destruct (discarded G) |]. intros _.
      destruct (lastPlay G) as [pl|] eqn:Hl; [| done]. by apply (Hlast pl).
    + intros pl. destruct (length t.2 =? 0)%nat eqn:Hlen; [done |].
      intros [= <-]. split.
      { destruct (lastPlay G) as [pl|] eqn:Hl; [| done]. by apply (Hlast pl). }
      split; [by rewrite Hv |].
      exists (currentPlayer ctx), t.2. split; [done |].
      split; [by rewrite lookup_insert_eq |].
      intros Hnil. rewrite Hnil in Hlen. done.
  - apply pass_accepted_fields in Hpass as [_ [-> | ->]]; [done |].
    split; [| split; [| split]]; try done.
Qed.

Lemma reachable_round_ok G : reachable G → round_ok G.
Proof.
  induction 1 as [deck Hdeck | G G' _ IH Hstep];
    [by apply round_ok_setup | by eapply round_ok_step].
Qed.

(** X13. All through a round the hands are those of seats 0 to 3, and
    [remaining] holds for each seat the number of cards in its hand. *)
Theorem remaining_mirrors_hands (G : State) :
  reachable G →
  (∀ s, is_Some (players G !! s) ↔ (s < 4)%nat) ∧
  (∀ s, remaining G !! s = length <$> players G !! s).
Proof. intros (H1 & H2 & _)%reachable_round_ok. done. Qed.

Lemma remaining_mirrors_hands_witness :
  let G := (play seat0 ["3C"] dealtInOrder).2 in
  reachable G ∧ remaining G !! 0%nat = length <$> players G !! 0%nat.
Proof.
  intros G. split; [apply first_play_reachable |].
  exact (proj2 (remaining_mirrors_hands G first_play_reachable) 0%nat).
Defined.

Lemma table_play_facts (G : State) (pl : Play) :
  reachable G →
  lastPlay G = Some pl →
  hasStarted G = true ∧ is_Some (Play_value pl) ∧
  ∃ s hand, player pl = Some s ∧ (s < 4)%nat ∧
            players G !! s = Some hand ∧ hand ≠ [] ∧ s ∉ winners G.
Proof.
  intros HG Hl. destruct (reachable_round_ok G HG) as (Hseats & _ & _ & Hlast).
  destruct (Hlast pl Hl) as (Hs & Hv & s & hand & Hp & Hhand & Hne).
  split; [done |]. split; [done |]. exists s, hand.
  split; [done |]. split; [apply Hseats; by eexists |]. split; [done |].
  split; [done |]. intros Hw.
  destruct (reachable_winners_ok G HG) as [_ Hempty].
  apply Hempty in Hw. congruence.
Qed.

(** X14. All through a round a play that is on the table has a value, was
    made after the round started, and belongs to one of the four seats,
    which still holds cards and is not among the winners. *)
Theorem table_play_is_live (G : State) (pl : Play) :
  reachable G →
  lastPlay G = Some pl →
  hasStarted G = true ∧ is_Some (Play_value pl) ∧
  ∃ s hand, player pl = Some s ∧ (s < 4)%nat ∧
            players G !! s = Some hand ∧ hand ≠ [] ∧ s ∉ winners G.
Proof. apply table_play_facts. Qed.

Lemma table_play_is_live_witness :
  let G := (play seat0 ["3C"] dealtInOrder).2 in
  (reachable G ∧ lastPlay G = Some (Play_fromString ["3C"] (Some 0%nat))) ∧
  hasStarted G = true ∧ is_Some (Play_value (Play_fromString ["3C"] (Some 0%nat))).
Proof.
  intros G.
  assert (lastPlay G = Some (Play_fromString ["3C"] (Some 0%nat))) as Hl
    by (vm_compute; reflexivity).
  split; [split; [apply first_play_reachable | done] |].
  destruct (table_play_is_live G _ first_play_reachable Hl) as (? & ? & _). done.
Defined.

(** X15. All through a round [hasStarted] is true exactly when a play has
    been accepted, that is, when [discarded] is not empty. *)
Theorem started_iff_discarded (G : State) :
  reachable G → (hasStarted G = true ↔ discarded G ≠ []).
Proof. intros (_ & _ & H & _)%reachable_round_ok. done. Qed.

Lemma started_iff_discarded_witness :
  reachable dealtInOrder ∧
  (hasStarted dealtInOrder = true ↔ discarded dealtInOrder ≠ []).
Proof.
  assert (reachable dealtInOrder) as H by (by apply reachable_setup).
  split; [done |]. exact (started_iff_discarded dealtInOrder H).
Defined.

(** X16. In a round with four seats both moves return: [play] by one of
    the four seats and [pass] are either accepted or answered with
    [INVALID_MOVE]; nothing throws and the loop of [getNext] ends. *)
Theorem moves_return (G : State) (ctx : Ctx) (cs : list CardStr) :
  reachable G →
  numPlayers ctx = 4%nat →
  (currentPlayer ctx < 4)%nat →
  (accepted (play ctx cs G) ∨ rejected (play ctx cs G)) ∧
  (accepted (pass ctx G) ∨ rejected (pass ctx G)).
Proof.
  intros HG Hn Hseat.
  destruct (reachable_round_ok G HG) as (Hseats & _ & _ & _). split.
  - unfold accepted, rejected, play, mbind at 1 3, Move_bind at 1 3, get.
    destruct (Play_value _) as [v|]; [| by right].
    destruct (proj2 (Hseats (currentPlayer ctx)) Hseat) as [hand ->].
    destruct (forallb _ _); [| by right]. simpl. unfold mbind, Move_bind.
    destruct (checkTable _ _ v G) as [[e|[]] G1] eqn:Hc.
    + apply checkTable_inv in Hc as [(-> & _) | (? & _)]; [by right | done].
    + rewrite discardPlay_eq. by left.
  - unfold accepted, rejected, pass, mbind, Move_bind, get, exit.
    destruct (lastPlay G) as [pl|] eqn:Hl; [| by right].
    destruct (table_play_facts G pl HG Hl) as (_ & _ & s & hand & _ & Hs & _ & _ & Hw).
    destruct (getNext G ctx) as [next|] eqn:Hnext.
    + left. by destruct (bool_decide _).
    + exfalso. apply Hw. unfold getNext in Hnext.
      rewrite getNext_loop_None in Hnext.
      destruct (seatAt_covers ctx 1 s ltac:(lia)) as (k & Hk & <-).
      by apply Hnext.
Qed.

Lemma moves_return_witness :
  (reachable dealtInOrder ∧ numPlayers seat0 = 4%nat ∧ (currentPlayer seat0 < 4)%nat) ∧
  (accepted (play seat0 ["4C"] dealtInOrder) ∨ rejected (play seat0 ["4C"] dealtInOrder)) ∧
  (accepted (pass seat0 dealtInOrder) ∨ rejected (pass seat0 dealtInOrder)).
Proof.
  assert (reachable dealtInOrder) as H by (by apply reachable_setup).
  assert (currentPlayer seat0 < 4)%nat as Hs by (simpl; lia).
  split; [done |]. exact (moves_return dealtInOrder seat0 ["4C"] H eq_refl Hs).
Defined.

(** ** Passing round the table *)

(** [pass] while nobody has won yet: the next seat is the one after the
    current position. *)
Lemma pass_no_winners ctx G last :
  winners G = [] → lastPlay G = Some last → (0 < numPlayers ctx)%nat →
  pass ctx G =
  (inr (), if bool_decide (player last = Some (seatAfter ctx 1))
           then set_lastPlay None G else G).
Proof.
  intros Hw Hl Hn. unfold pass, mbind, Move_bind, get, modify, mret, Move_ret.
  rewrite Hl. unfold getNext. destruct (numPlayers ctx) as [|n] eqn:Hnum; [lia |].
  cbn [getNext_loop]. rewrite Hnum, Hw. unfold Js.includes.
  rewrite bool_decide_eq_false_2 by apply not_elem_of_nil.
  unfold seatAfter. rewrite Hnum. by destruct (bool_decide _).
Qed.

(** X17. While nobody has won, three passes by the three seats that follow
    the owner of the play on the table clear the table: the first two leave
    the state as it is, and the third one, made by the seat before the
    owner, removes [lastPlay] and changes nothing else. *)
Theorem three_passes_clear_table (G : State) (last : Play) (a : nat) :
  winners G = [] →
  lastPlay G = Some last →
  player last = Some a →
  (a < 4)%nat →
  run G [(seatCtx ((a + 1) `mod` 4), None); (seatCtx ((a + 2) `mod` 4), None)] = Some G ∧
  run G [(seatCtx ((a + 1) `mod` 4), None); (seatCtx ((a + 2) `mod` 4), None);
         (seatCtx ((a + 3) `mod` 4), None)] = Some (set_lastPlay None G).
Proof.
  intros Hw Hl Hp Ha.
  assert (∀ k, runMove G (seatCtx k, None) =
               Some (if bool_decide (Some a = Some ((k + 1) `mod` 4)%nat)
                     then set_lastPlay None G else G)) as Hpass.
  { intros k. unfold runMove. cbn [fst snd].
    rewrite (pass_no_winners _ G last Hw Hl) by (unfold seatCtx, NUM_PLAYERS; simpl; lia).
    by rewrite Hp. }
  do 4 (destruct a as [|a];
         [cbn [run];
          repeat (rewrite Hpass;
                  match goal with
                  | |- context [bool_decide ?P] =>
                      let b := eval vm_compute in (bool_decide P) in
                      change (bool_decide P) with b
                  end; cbv beta iota);
          done |]).
  lia.
Qed.

Lemma three_passes_clear_table_witness :
  let G := (play seat0 ["3C"] dealtInOrder).2 in
  (winners G = [] ∧ lastPlay G = Some (Play_fromString ["3C"] (Some 0%nat))) ∧
  run G [(seatCtx 1, None); (seatCtx 2, None); (seatCtx 3, None)] =
    Some (set_lastPlay None G).
Proof.
  intros G.
  assert (winners G = []) as Hw by (vm_compute; reflexivity).
  assert (lastPlay G = Some (Play_fromString ["3C"] (Some 0%nat))) as Hl
    by (vm_compute; reflexivity).
  split; [done |].
  exact (proj2 (three_passes_clear_table G _ 0 Hw Hl eq_refl ltac:(lia))).
Defined.

(** ** What only grows and what only shrinks *)

Lemma step_grows G G' :
  step G G' →
  discarded G `prefix_of` discarded G' ∧ winners G `prefix_of` winners G' ∧
  (hasStarted G = true → hasStarted G' = true) ∧
  firstTurn G' = firstTurn G ∧
  ∀ s hand, players G !! s = Some hand →
    ∃ hand', players G' !! s = Some hand' ∧ hand' `sublist_of` hand.
Proof.
  intros [ctx [[cs Hplay] | Hpass]].
  - apply play_accepted_fields in Hplay as (hand & v & Hhand & _ & _ & ->).
    cbn [players discarded winners hasStarted firstTurn].
    split; [by apply prefix_app_r |]. split.
    { destruct (_ =? _)%nat; [by apply prefix_app_r | done]. }
    split; [by destruct (lastPlay G) |]. split; [done |].
    intros s h Hs. destruct (decide (currentPlayer ctx = s)) as [<- | Hne].
    + rewrite lookup_insert_eq. eexists. split; [done |].
      rewrite Hhand in Hs. injection Hs as <-. apply takeFromHand_sublist.
    + rewrite lookup_insert_ne by done. by exists h.
  - apply pass_accepted_fields in Hpass as [_ [-> | ->]];
      (repeat split; [done .. |]); intros s h Hs; by exists h.
Qed.

(** X18. In the course of a round [discarded] and [winners] only grow at
    their end, no hand gets a card (each hand is what is left of the earlier
    one, in its order), [hasStarted] stays true once it is, and [firstTurn]
    stays what it is. *)
Theorem round_only_moves_forward (G G' : State) :
  rtc step G G' →
  discarded G `prefix_of` discarded G' ∧ winners G `prefix_of` winners G' ∧
  (hasStarted G = true → hasStarted G' = true) ∧
  firstTurn G' = firstTurn G ∧
  ∀ s hand, players G !! s = Some hand →
    ∃ hand', players G' !! s = Some hand' ∧ hand' `sublist_of` hand.
Proof.
  induction 1 as [G | G G1 G2 Hstep _ IH].
  - repeat split; try done. intros s h Hs. by exists h.
  - destruct (step_grows G G1 Hstep) as (Hd & Hw & Hs & Hf & Hh).
    destruct IH as (Hd' & Hw' & Hs' & Hf' & Hh').
    split; [by etrans |]. split; [by etrans |]. split; [auto |].
    split; [congruence |].
    intros s h Hp. destruct (Hh s h Hp) as (h1 & Hp1 & Hsub1).
    destruct (Hh' s h1 Hp1) as (h2 & Hp2 & Hsub2).
    exists h2. split; [done | by etrans].
Qed.

Lemma round_only_moves_forward_witness :
  rtc step dealtInOrder lastFive ∧
  discarded dealtInOrder `prefix_of` discarded lastFive ∧
  firstTurn lastFive = firstTurn dealtInOrder.
Proof.
  assert (rtc step dealtInOrder lastFive) as Hsteps.
  { unfold lastFive. destruct (run dealtInOrder _) as [G|] eqn:Hrun.
    - exact (run_rtc _ _ _ Hrun).
    - apply rtc_refl. }
  split; [exact Hsteps |].
  destruct (round_only_moves_forward _ _ Hsteps) as (Hd & _ & _ & Hf & _).
  exact (conj Hd Hf).
Defined.

(** ** Plays as texts *)

Lemma append_assoc_char cur c t :
  (cur +:+ String c EmptyString) +:+ t = cur +:+ String c t.
Proof.
  induction cur as [|d cur IH]; [done |].
  change (String d ((cur +:+ String c EmptyString) +:+ t) = String d (cur +:+ String c t)).
  by f_equal.
Qed.

Lemma append_empty_r s : s +:+ "" = s.
Proof.
  induction s as [|c s IH]; [done |].
  change (String c (s +:+ "") = String c s). by f_equal.
Qed.

(** A text without whitespace is read as one piece. *)
Lemma splitGo_token c t rest cur b :
  noSpace (String c t) = true →
  Js.splitGo (String c t +:+ rest) cur b = Js.splitGo rest (cur +:+ String c t) false.
Proof.
  revert c cur b. induction t as [|d t IH]; intros c cur b Hns;
    unfold noSpace in Hns; cbn [chars list_ascii_of_string forallb] in Hns;
    apply andb_true_iff in Hns as [Hc Hns]; apply negb_true_iff in Hc;
    [change (String c "" +:+ rest) with (String c rest)
    |change (String c (String d t) +:+ rest) with (String c (String d t +:+ rest))];
    cbn [Js.splitGo]; rewrite Hc.
  - done.
  - rewrite (IH d _ false Hns). by rewrite append_assoc_char.
Qed.

Lemma join_cons sep x y l :
  Js.join sep (x :: y :: l) = x +:+ sep +:+ Js.join sep (y :: l).
Proof. reflexivity. Qed.

Lemma split_join ts t b :
  Forall (λ t, t ≠ "" ∧ noSpace t = true) (t :: ts) →
  Js.splitGo (Js.join " " (t :: ts)) "" b = t :: ts.
Proof.
  revert t b. induction ts as [|t2 ts IH]; intros t b Hall.
  - apply Forall_cons in Hall as [[Hne Hns] _].
    change (Js.join " " [t]) with t.
    destruct t as [|c t]; [done |].
    rewrite <- (append_empty_r (String c t)) at 1.
    by rewrite splitGo_token.
  - pose proof Hall as Hall'. apply Forall_cons in Hall' as [[Hne Hns] Hrest].
    rewrite join_cons. destruct t as [|c t]; [done |].
    rewrite splitGo_token by done.
    change (" " +:+ Js.join " " (t2 :: ts))
      with (String " "%char (Js.join " " (t2 :: ts))).
    change ("" +:+ String c t) with (String c t).
    cbn [Js.splitGo]. change (Js.isSpace " ") with true. cbv iota.
    by rewrite (IH t2 true Hrest).
Qed.

Lemma deck_text_token c :
  c ∈ Card_newDeck → Card_toString c ≠ "" ∧ noSpace (Card_toString c) = true.
Proof.
  assert (Forall (λ c, Card_toString c ≠ "" ∧ noSpace (Card_toString c) = true)
                 Card_newDeck) as H.
  { apply (bool_decide_unpack _). vm_compute. exact I. }
  rewrite Forall_forall in H. apply H.
Qed.

Lemma sort_deck_unique cs cs' :
  Forall (λ c, c ∈ Card_newDeck) cs → cs ≡ₚ cs' →
  Js.sort byValue cs = Js.sort byValue cs'.
Proof.
  intros Hdeck Hperm.
  apply (StronglySorted_unique_strong (λ x y, Card_value x ≤ Card_value y));
    try apply byValue_sorted; [| by rewrite !sort_Permutation].
  intros x1 x2 H1 H2 ? ?. rewrite sort_Permutation in H1.
  rewrite sort_Permutation, <- Hperm in H2. rewrite Forall_forall in Hdeck.
  apply deck_value_inj; [by apply Hdeck | by apply Hdeck | lia].
Qed.

(** X19. A play of cards of the deck that is written out as a text and read
    back from it has the same cards and the same value.  The text of a play
    without cards is empty, and read back it is one card without rank and
    suit, which has the value -5. *)
Theorem play_text_round_trip :
  (∀ cs p p', cs ≠ [] → Forall (λ c, c ∈ Card_newDeck) cs →
     cards (Play_fromText (Play_toString (newPlay cs p)) p') = cards (newPlay cs p) ∧
     Play_value (Play_fromText (Play_toString (newPlay cs p)) p') =
     Play_value (newPlay cs p)) ∧
  (∀ p p', Play_toString (newPlay [] p) = "" ∧
           cards (Play_fromText "" p') = [mkCard None None] ∧
           Play_value (Play_fromText "" p') = Some (-5)).
Proof.
  split; [| done]. intros cs p p' Hne Hdeck.
  assert (cards (Play_fromText (Play_toString (newPlay cs p)) p') = cards (newPlay cs p)) as Hc.
  { unfold Play_fromText, Play_toString, Play_toStrings, Play_fromString, newPlay, Js.split.
    cbn [cards].
    pose proof (sort_Permutation byValue cs) as Hperm.
    assert (Forall (λ c, c ∈ Card_newDeck) (Js.sort byValue cs)) as Hd by by rewrite Hperm.
    destruct (Js.sort byValue cs) as [|c sorted] eqn:Hs.
    { apply Permutation_nil_l in Hperm. by subst. }
    rewrite fmap_cons, split_join.
    - rewrite <- fmap_cons, <- list_fmap_compose.
      rewrite (proj1 (Forall_fmap_ext (Card_fromString ∘ Card_toString) id (c :: sorted))).
      + rewrite list_fmap_id, <- Hs. rewrite <- Hs in Hd.
        rewrite (sort_deck_unique _ cs Hd (sort_Permutation _ _)). done.
      + eapply Forall_impl; [exact Hd |]. simpl. intros x Hx.
        assert (Forall (λ c, Card_fromString (Card_toString c) = c) Card_newDeck) as H.
        { apply (bool_decide_unpack _). vm_compute. exact I. }
        rewrite Forall_forall in H. by apply H.
    - rewrite <- fmap_cons. apply Forall_fmap.
      eapply Forall_impl; [exact Hd |]. simpl. apply deck_text_token. }
  split; [done |].
  destruct (Play_fromText _ p') as [l1 o1]. destruct (newPlay cs p) as [l2 o2].
  simpl in Hc. subst. apply Play_value_owner.
Qed.

Lemma play_text_round_trip_witness :
  (wheel ≠ [] ∧ Forall (λ c, c ∈ Card_newDeck) wheel) ∧
  Play_toString (newPlay wheel None) = "3C 4H 5D AC 2S" ∧
  cards (Play_fromText "3C 4H 5D AC 2S" None) = cards (newPlay wheel None).
Proof.
  assert (Forall (λ c, c ∈ Card_newDeck) wheel) as Hdeck
    by (apply (bool_decide_unpack _); vm_compute; exact I).
  assert (wheel ≠ []) as Hne by done.
  assert (Play_toString (newPlay wheel None) = "3C 4H 5D AC 2S") as Ht
    by (vm_compute; reflexivity).
  split; [done |]. split; [done |]. rewrite <- Ht.
  exact (proj1 (proj1 play_text_round_trip wheel None None Hne Hdeck)).
Defined.

(** * The table in a round *)

(** ** The card that fixes the value of a play *)

Lemma Play_straight_card p v :
  Play_straight p = Some v → ∃ c, c ∈ cards p ∧ v = Card_value c.
Proof.
  unfold Play_straight. cbn zeta.
  set (nums := Js.sort Js.ascending (Js.setOf (num <$> cards p))).
  case_bool_decide as Hlen; [| done].
  destruct (at_ nums 0 + 4 =? at_ nums 4).
  { destruct (List.find _ _) as [c|] eqn:Hfind; [| done]. intros [= <-].
    apply find_some in Hfind as [Hc%list_elem_of_In _]. by exists c. }
  destruct (at_ nums 0 =? 0); [| done].
  destruct (_ + 4 =? _); [| done].
  destruct (List.find _ _) as [c|] eqn:Hfind; [| done]. intros [= <-].
  apply find_some in Hfind as [Hc%list_elem_of_In _]. by exists c.
Qed.

(** The comparison value of a five-card combination is read off one of its
    cards: for a flush thirteen times the suit plus the rank, for the other
    kinds the value of the card. *)
Lemma classify_card p combi val :
  classify p = (combi, val) → combi ≠ CNone →
  ∃ c, c ∈ cards p ∧
    val = if bool_decide (combi = Flush)
          then suitIndex c * 13 + rankIndex c else Card_value c.
Proof.
  unfold classify.
  destruct (Js.ifTruthy (Play_straight p)) as [w|] eqn:Hs.
  { apply ifTruthy_Some in Hs as [Hs _].
    apply Play_straight_card in Hs as (c & Hc & ->).
    destruct (Js.truthy _); intros [= <- <-] _; exists c; by split. }
  destruct (Js.ifTruthy (Play_quadro p)) as [w|] eqn:Hq.
  { apply ifTruthy_Some in Hq as [Hq _]. unfold Play_quadro in Hq.
    destruct (withSameRank_has p 4); [| done].
    destruct (cards p !! 1%nat) as [c|] eqn:Hc; [| done]. injection Hq as <-.
    intros [= <- <-] _. exists c. split; [by eapply list_elem_of_lookup_2 | done]. }
  destruct (Js.ifTruthy (Play_fullHouse p)) as [w|] eqn:Hf.
  { apply ifTruthy_Some in Hf as [Hf _]. unfold Play_fullHouse in Hf.
    destruct (withSameRank_has p 2 && withSameRank_has p 3); [| done].
    destruct (cards p !! 2%nat) as [c|] eqn:Hc; [| done]. injection Hf as <-.
    intros [= <- <-] _. exists c. split; [by eapply list_elem_of_lookup_2 | done]. }
  destruct (Js.ifTruthy (Play_flush p)) as [w|] eqn:Hfl; [| by intros [= <- _] ?].
  apply ifTruthy_Some in Hfl as [Hfl _].
  apply Play_flush_inv in Hfl as (c4 & H4 & -> & _).
  intros [= <- <-] _. exists c4. split; [by eapply list_elem_of_lookup_2 | done].
Qed.

(** Every value, of whatever length and kind of play, is a multiple of a
    thousand plus what one card of the play gives. *)
Lemma value_card p v :
  Play_value p = Some v →
  ∃ c k, c ∈ cards p ∧ 0 ≤ k ≤ 5 ∧
    v = k * 1000 +
        (if k =? 2 then suitIndex c * 13 + rankIndex c else Card_value c).
Proof.
  unfold Play_value.
  destruct (length (cards p)) as [|[|[|[|[|[|n]]]]]]; try done.
  - destruct (cards p !! 0%nat) as [c|] eqn:Hc; [| done]. intros [= <-].
    exists c, 0. split; [by eapply list_elem_of_lookup_2 |].
    change (0 =? 2) with false. cbv iota. lia.
  - destruct (withSameRank_has p 2); [| done].
    destruct (cards p !! 1%nat) as [c|] eqn:Hc; [| done]. intros [= <-].
    exists c, 0. split; [by eapply list_elem_of_lookup_2 |].
    change (0 =? 2) with false. cbv iota. lia.
  - destruct (withSameRank_has p 3); [| done].
    destruct (cards p !! 0%nat) as [c|] eqn:Hc; [| done]. intros [= <-].
    exists c, 0. split; [by eapply list_elem_of_lookup_2 |].
    change (0 =? 2) with false. cbv iota. lia.
  - destruct (classify p) as [combi val] eqn:Hk.
    case_bool_decide as Hn; [done |]. intros [= <-].
    destruct (classify_card _ _ _ Hk Hn) as (c & Hc & ->).
    exists c, (Combi_num combi). split; [done |].
    split; [destruct combi; simpl; lia |]. by destruct combi.
Qed.

(** Two plays of cards of the deck that have the same value have a card in
    common. *)
Lemma same_value_shares_card p1 p2 v :
  (∀ c, c ∈ cards p1 → c ∈ Card_newDeck) →
  (∀ c, c ∈ cards p2 → c ∈ Card_newDeck) →
  Play_value p1 = Some v → Play_value p2 = Some v →
  ∃ c, c ∈ cards p1 ∧ c ∈ cards p2.
Proof.
  intros Hd1 Hd2 (c1 & k1 & Hc1 & Hk1 & Hv1)%value_card
                 (c2 & k2 & Hc2 & Hk2 & Hv2)%value_card.
  pose proof (deck_card_range c1 (Hd1 c1 Hc1)) as [? ?].
  pose proof (deck_card_range c2 (Hd2 c2 Hc2)) as [? ?].
  exists c1. split; [done |].
  assert (c1 = c2) as ->; [| done].
  apply deck_value_inj; [by apply Hd1 | by apply Hd2 |].
  unfold Card_value in *.
  destruct (Z.eqb_spec k1 2); destruct (Z.eqb_spec k2 2); lia.
Qed.

(** ** Where the cards of the table are *)

Lemma reachable_deck G :
  reachable G → allCards G ≡ₚ Card_toString <$> Card_newDeck.
Proof.
  induction 1 as [deck Hdeck | G G' _ IH Hstep].
  - by rewrite setup_allCards, Hdeck.
  - by rewrite (step_allCards _ _ Hstep).
Qed.

Lemma deck_card_fields c :
  c ∈ Card_newDeck → ∃ r u, c = mkCard (Some r) (Some u).
Proof.
  intros Hc.
  assert (Forall (λ c, is_Some (rank c) ∧ is_Some (suit c)) Card_newDeck) as H.
  { apply (bool_decide_unpack _). vm_compute. exact I. }
  rewrite Forall_forall in H. destruct (H c Hc) as [[r Hr] [u Hu]].
  exists r, u. destruct c. simpl in *. by subst.
Qed.

(** A card whose text is a text of the deck is a card of the deck. *)
Lemma deck_card_of_text c :
  Card_toString c ∈ Card_toString <$> Card_newDeck → c ∈ Card_newDeck.
Proof.
  intros (c' & Heq & Hc')%list_elem_of_fmap.
  destruct (deck_card_fields c' Hc') as (r & u & ->).
  assert (c = mkCard (Some r) (Some u)) as ->; [| done].
  revert Heq. destruct c as [[r0|] [u0|]]; simpl; intros [=]; by subst.
Qed.

Lemma hand_in_allCards G s hand t :
  players G !! s = Some hand → t ∈ hand → t ∈ allCards G.
Proof.
  intros Hh Ht. unfold allCards. rewrite (hands_lookup _ _ _ Hh).
  apply elem_of_app. left. apply elem_of_app. by left.
Qed.

(** A text of the play that was in the hand is in the group [discard],
    also where the play repeats a text: it was taken out by its own
    [splice], or by the [splice (-1, 1)] of a text before it. *)
Lemma takeFromHand_takes hand ps t :
  t ∈ ps → t ∈ hand → Some t ∈ (takeFromHand hand ps).1.
Proof.
  revert hand. induction ps as [|card ps IH]; intros hand Hps Hh;
    [by apply elem_of_nil in Hps |].
  cbn [takeFromHand].
  pose proof (splice_Permutation hand (Js.arrayIndexOf hand card) 1) as Hperm.
  pose proof (splice_one_removed hand (Js.arrayIndexOf hand card)) as Hrem.
  assert (card ∈ hand →
          Js.pop (Js.splice hand (Js.arrayIndexOf hand card) 1).1 = Some card)
    as Hfound.
  { intros Hc. destruct (arrayIndexOf_found hand card Hc) as (i & -> & Hl).
    by rewrite (splice_found hand i card Hl). }
  destruct (Js.splice hand _ 1) as [removed hand1]. cbn [fst snd] in *.
  specialize (IH hand1). destruct (takeFromHand hand1 ps) as [d hand2].
  cbn [fst] in *.
  apply elem_of_cons in Hps as [-> | Hps].
  - rewrite (Hfound Hh). apply list_elem_of_here.
  - rewrite Hperm, <- Hrem in Hh. apply elem_of_app in Hh as [Hh | Hh].
    + destruct (Js.pop removed) as [x|]; simpl in Hh.
      * apply list_elem_of_singleton in Hh as ->. apply list_elem_of_here.
      * by apply elem_of_nil in Hh.
    + apply list_elem_of_further. by apply IH.
Qed.

(** All through a round the cards of the play on the table are cards of the
    deck, and their texts are among the discarded ones. *)
Lemma table_cards_discarded G :
  reachable G → ∀ last, lastPlay G = Some last →
  ∀ c, c ∈ cards last →
    c ∈ Card_newDeck ∧ Card_toString c ∈ discards (discarded G).
Proof.
  induction 1 as [deck Hdeck | G G' HG IH Hstep]; intros last Hl c Hc.
  - destruct (setup_fields deck) as (_ & _ & _ & Hnone & _). congruence.
  - destruct Hstep as [ctx [[cs Hplay] | Hpass]].
    + apply play_accepted_fields in Hplay as (hand & v & Hhand & Hv & Hin & ->).
      cbn [lastPlay discarded] in *.
      set (pl := Play_fromString cs (Some (currentPlayer ctx))) in *.
      destruct (length _ =? 0)%nat; [done |]. injection Hl as <-.
      assert (Card_toString c ∈ Play_toStrings pl) as Ht.
      { unfold Play_toStrings. apply list_elem_of_fmap. by exists c. }
      split.
      * apply deck_card_of_text. rewrite <- (reachable_deck G HG).
        by apply (hand_in_allCards G (currentPlayer ctx) hand), Hin.
      * rewrite discards_app. apply elem_of_app. right.
        unfold discards. simpl. rewrite app_nil_r. unfold groupCards.
        apply list_elem_of_omap. exists (Some (Card_toString c)).
        split; [| done]. apply takeFromHand_takes; [done | by apply Hin].
    + apply pass_accepted_fields in Hpass as [_ [-> | ->]];
        [exact (IH last Hl c Hc) | done].
Qed.

(** In a round no play made from a hand ties with the play on the table:
    the card that fixes the value would be in the hand and among the
    discarded cards at once. *)
Lemma no_tie_in_round ctx G last cs hand v :
  reachable G → lastPlay G = Some last →
  players G !! currentPlayer ctx = Some hand →
  (∀ t, t ∈ Play_toStrings (Play_fromString cs (Some (currentPlayer ctx))) →
        t ∈ hand) →
  Play_value (Play_fromString cs (Some (currentPlayer ctx))) = Some v →
  Play_value last ≠ Some v.
Proof.
  intros HG Hl Hhand Hin Hv Hvl.
  set (pl := Play_fromString cs (Some (currentPlayer ctx))) in *.
  pose proof (reachable_deck G HG) as Hdeck.
  assert (∀ c, c ∈ cards pl → Card_toString c ∈ hand) as Hpl.
  { intros c Hc. apply Hin. unfold Play_toStrings.
    apply list_elem_of_fmap. by exists c. }
  destruct (same_value_shares_card pl last v) as (c & Hc1 & Hc2);
    [| | done | done |].
  - intros c Hc. apply deck_card_of_text. rewrite <- Hdeck.
    by apply (hand_in_allCards G (currentPlayer ctx) hand), Hpl.
  - intros c Hc. by apply (table_cards_discarded G HG last Hl).
  - destruct (table_cards_discarded G HG last Hl c Hc2) as [_ Hd].
    assert (NoDup (allCards G)) as Hnd
      by (rewrite Hdeck; apply deck_texts_NoDup).
    unfold allCards in Hnd. apply NoDup_app in Hnd as (_ & Hdisj & _).
    apply (Hdisj (Card_toString c)); [| done].
    rewrite (hands_lookup _ _ _ Hhand). apply elem_of_app. left. by apply Hpl.
Qed.

(** ** Beating the play on the table *)

(** C2. In every state of a round in which there is a [lastPlay], that play
    has a value, and [play] is accepted only if the submitted play has as
    many cards as [lastPlay] and a value strictly greater than the value of
    [lastPlay]; submitted by one of the four seats, a play of another
    length, or of a value equal to or lower than that of [lastPlay], returns
    [INVALID_MOVE]. *)
Theorem play_beats_lastPlay (ctx : Ctx) (G : State) (last : Play)
    (cs : list CardStr) :
  reachable G →
  lastPlay G = Some last →
  let pl := Play_fromString cs (Some (currentPlayer ctx)) in
  ∃ vl, Play_value last = Some vl ∧
    (accepted (play ctx cs G) →
       length (cards pl) = length (cards last) ∧
       ∃ v, Play_value pl = Some v ∧ vl < v) ∧
    ((currentPlayer ctx < NUM_PLAYERS)%nat →
     length (cards pl) ≠ length (cards last) ∨
       (∃ v, Play_value pl = Some v ∧ v ≤ vl) →
     rejected (play ctx cs G)).
Proof.
  intros HG Hl pl.
  destruct (table_play_facts G last HG Hl) as (_ & [vl Hvl] & _).
  exists vl. split; [done |].
  destruct (play_table_test ctx G last cs Hl) as [Hacc Hrej].
  fold pl in Hacc, Hrej. rewrite Hvl in Hacc, Hrej.
  change (default 0 (Some vl)) with vl in Hacc, Hrej.
  split.
  - intros Ha. destruct (Hacc Ha) as (Hlen & v & Hv & Hle).
    split; [done |]. exists v. split; [done |].
    destruct (play ctx cs G) as [r G'] eqn:Hplay.
    unfold accepted in Ha. simpl in Ha. subst r.
    apply play_accepted_inv in Hplay as (v' & hand & _ & Hv' & Hhand & Hin & _).
    fold pl in Hv'. rewrite Hv in Hv'. injection Hv' as <-.
    assert (vl ≠ v); [| lia]. intros ->.
    by apply (no_tie_in_round ctx G last cs hand v).
  - intros Hseat Hbad.
    destruct (reachable_round_ok G HG) as (Hseats & _).
    pose proof (proj2 (Hseats (currentPlayer ctx)) Hseat) as Hsome.
    destruct Hbad as [Hne | (v & Hv & Hle)]; [apply Hrej; [done | by left] |].
    destruct (decide (v < vl)) as [Hlt | Hge].
    { apply Hrej; [done |]. right. by exists v. }
    assert (v = vl) as -> by lia. destruct Hsome as [hand Hhand].
    unfold rejected, play, mbind at 1, Move_bind at 1, get. fold pl.
    rewrite Hv, Hhand. destruct (forallb _ _) eqn:Hall; [| done]. exfalso.
    apply (no_tie_in_round ctx G last cs hand vl); try done.
    intros t Ht. rewrite forallb_forall in Hall.
    by apply includes_elem_of, Hall, list_elem_of_In.
Qed.

Lemma play_beats_lastPlay_witness :
  let G := (play seat0 ["3C"] dealtInOrder).2 in
  (reachable G ∧ lastPlay G = Some (Play_fromString ["3C"] (Some 0%nat)) ∧
   accepted (play (seatCtx 1) ["6S"] G)) ∧
  (∃ v, Play_value (Play_fromString ["6S"] (Some 1%nat)) = Some v ∧ 0 < v) ∧
  rejected (play (seatCtx 1) ["6S"; "6H"] G) ∧
  rejected (play (seatCtx 1) ["3C"] G).
Proof.
  intros G.
  assert (lastPlay G = Some (Play_fromString ["3C"] (Some 0%nat))) as Hl
    by (vm_compute; reflexivity).
  assert (accepted (play (seatCtx 1) ["6S"] G)) as Ha
    by (vm_compute; reflexivity).
  assert (currentPlayer (seatCtx 1) < NUM_PLAYERS)%nat as Hseat
    by (unfold seatCtx, NUM_PLAYERS; simpl; lia).
  split; [split; [apply first_play_reachable | split; [exact Hl | exact Ha]] |].
  split; [| split].
  - destruct (play_beats_lastPlay (seatCtx 1) G _ ["6S"] first_play_reachable Hl)
      as (vl & Hvl & Hstrict & _).
    vm_compute in Hvl. injection Hvl as <-.
    exact (proj2 (Hstrict Ha)).
  - destruct (play_beats_lastPlay (seatCtx 1) G _ ["6S"; "6H"] first_play_reachable Hl)
      as (vl & _ & _ & Hrej).
    apply (Hrej Hseat). left. vm_compute. discriminate.
  - destruct (play_beats_lastPlay (seatCtx 1) G _ ["3C"] first_play_reachable Hl)
      as (vl & Hvl & _ & Hrej).
    vm_compute in Hvl. injection Hvl as <-.
    apply (Hrej Hseat). right. exists 0. split; [vm_compute; reflexivity | lia].
Defined.

(** ** Passing on a play *)

(** With a seat of the rotation outside [winners] the loop of [getNext]
    returns the first such seat after the current position. *)
Lemma getNext_returns (G : State) (ctx : Ctx) :
  (∃ seat, (seat < numPlayers ctx)%nat ∧ seat ∉ winners G) →
  ∃ k, (1 ≤ k ≤ numPlayers ctx)%nat ∧
    getNext G ctx = Some (seatAfter ctx k) ∧
    (seatAfter ctx k ∉ winners G) ∧
    (∀ j, (1 ≤ j < k)%nat → seatAfter ctx j ∈ winners G).
Proof.
  intros (seat & Hlt & Hnot).
  destruct (getNext G ctx) as [s|] eqn:Hnext.
  - pose proof Hnext as Hs. unfold getNext in Hs.
    apply getNext_loop_Some in Hs as (k & Hk & -> & Hs & Hj).
    exists (1 + k)%nat. split; [lia |]. split; [done |]. split; [done |].
    intros j Hj'. replace j with (1 + (j - 1))%nat by lia. apply Hj. lia.
  - exfalso. unfold getNext in Hnext. rewrite getNext_loop_None in Hnext.
    destruct (seatAt_covers ctx 1 seat Hlt) as (k & Hk & Hseat).
    apply Hnot. rewrite <- Hseat. by apply Hnext.
Qed.

(** What [pass] returns on a play, once [getNext] has returned. *)
Lemma pass_on_play ctx G last next :
  lastPlay G = Some last → getNext G ctx = Some next →
  pass ctx G =
    (inr (), if bool_decide (player last = Some next)
             then set_lastPlay None G else G).
Proof.
  intros Hl Hn.
  unfold pass, mbind, Move_bind, get, exit, modify, mret, Move_ret.
  rewrite Hl, Hn. by destruct (bool_decide _).
Qed.

(** C9. [pass] returns [INVALID_MOVE] exactly when there is no [lastPlay],
    and then leaves the state as it was.  Where there is a [lastPlay] and a
    seat of the rotation is not in [winners], [pass] is accepted: [getNext]
    returns the first seat after the current position that is not in
    [winners], and [pass] returns the state without [lastPlay] if that seat
    owns [lastPlay], and the state unchanged otherwise; so it is in every
    state of a round with four seats.  An accepted [pass] leaves no
    [lastPlay] exactly when the seat [getNext] gives is the owner of
    [lastPlay], and it leaves the hands, the counts, the discarded groups,
    the winners and [hasStarted] as they were. *)
Theorem pass_spec (ctx : Ctx) (G : State) :
  (rejected (pass ctx G) ↔ lastPlay G = None) ∧
  (lastPlay G = None → pass ctx G = (inl INVALID_MOVE, G)) ∧
  (∀ last, lastPlay G = Some last →
     (∃ seat, (seat < numPlayers ctx)%nat ∧ seat ∉ winners G) →
     ∃ k, (1 ≤ k ≤ numPlayers ctx)%nat ∧
       getNext G ctx = Some (seatAfter ctx k) ∧
       (seatAfter ctx k ∉ winners G) ∧
       (∀ j, (1 ≤ j < k)%nat → seatAfter ctx j ∈ winners G) ∧
       pass ctx G =
         (inr (), if bool_decide (player last = Some (seatAfter ctx k))
                  then set_lastPlay None G else G)) ∧
  (reachable G → numPlayers ctx = NUM_PLAYERS → is_Some (lastPlay G) →
     accepted (pass ctx G)) ∧
  (accepted (pass ctx G) →
     let G' := (pass ctx G).2 in
     (lastPlay G' = None ↔
        ∃ last next, lastPlay G = Some last ∧ getNext G ctx = Some next ∧
                     player last = Some next) ∧
     (lastPlay G' = None ∨ lastPlay G' = lastPlay G) ∧
     players G' = players G ∧ remaining G' = remaining G ∧
     discarded G' = discarded G ∧ winners G' = winners G ∧
     hasStarted G' = hasStarted G ∧ firstTurn G' = firstTurn G).
Proof.
  split; [| split; [| split; [| split]]].
  - unfold rejected, pass, mbind, Move_bind, get, exit, modify, mret, Move_ret.
    destruct (lastPlay G) as [last|]; simpl; [| done].
    destruct (getNext G ctx) as [next|]; simpl; [| done].
    by destruct (bool_decide _).
  - intros Hl. unfold pass, mbind, Move_bind, get, exit. by rewrite Hl.
  - intros last Hl Hactive.
    destruct (getNext_returns G ctx Hactive) as (k & Hk & Hn & Hw & Hj).
    exists k. split; [done |]. split; [done |]. split; [done |].
    split; [done |]. by apply pass_on_play.
  - intros HG Hnum [last Hl].
    destruct (table_play_facts G last HG Hl)
      as (_ & _ & s & hand & _ & Hs & _ & _ & Hw).
    destruct (getNext_returns G ctx) as (k & _ & Hn & _).
    { exists s. rewrite Hnum. unfold NUM_PLAYERS. by split. }
    unfold accepted. by rewrite (pass_on_play ctx G last _ Hl Hn).
  - unfold accepted, pass, mbind, Move_bind, get, exit, modify, mret, Move_ret.
    destruct (lastPlay G) as [last|] eqn:Hlast; simpl; [| done].
    destruct (getNext G ctx) as [next|] eqn:Hnext; simpl; [| done].
    destruct (bool_decide (player last = Some next)) eqn:Hp; simpl.
    + apply bool_decide_eq_true in Hp. intros _. repeat split; eauto.
    + apply bool_decide_eq_false in Hp. rewrite Hlast.
      intros _. repeat split; eauto; try done.
      intros (l & n & [= <-] & [= <-] & ?). done.
Qed.

Lemma pass_spec_witness :
  let G := (play seat0 ["3C"] dealtInOrder).2 in
  (reachable G ∧ numPlayers (seatCtx 3) = NUM_PLAYERS ∧ is_Some (lastPlay G)) ∧
  accepted (pass (seatCtx 3) G) ∧
  lastPlay (pass (seatCtx 3) G).2 = None ∧
  players (pass (seatCtx 3) G).2 = players G.
Proof.
  intros G.
  assert (lastPlay G = Some (Play_fromString ["3C"] (Some 0%nat))) as Hl
    by (vm_compute; reflexivity).
  assert (is_Some (lastPlay G)) as Hsome by (rewrite Hl; by eexists).
  split; [split; [apply first_play_reachable | split; [reflexivity | exact Hsome]] |].
  destruct (pass_spec (seatCtx 3) G) as (_ & _ & _ & Hacc & Hstate).
  pose proof (Hacc first_play_reachable eq_refl Hsome) as Ha.
  split; [exact Ha |].
  destruct (Hstate Ha) as (Hclear & _ & Hplayers & _).
  split; [| exact Hplayers].
  apply Hclear. exists (Play_fromString ["3C"] (Some 0%nat)), 0%nat.
  split; [exact Hl |]. split; vm_compute; reflexivity.
Defined.
